(** * RD-03D radar relay: frame synchronizer, target decoder, classifier,
      packet encoder and relay queue of [RaspberryPi/Ble_gatt_server.py].

    The Python program is embedded shallowly.  Byte strings are
    [list byte]; Python integers are [Z]; Python floats are the binary64
    primitive floats of Rocq; the mutable attributes of an object
    ([self.buffer], [self.notifying], [self.value], the queue) are passed
    explicitly from call to call. *)

From Stdlib Require Import List ZArith Lia Bool Arith Sorted.
From Stdlib Require Import Strings.Byte.
From Stdlib Require Import QArith.
From Stdlib Require Import Floats.
From Stdlib Require String.
Import Stdlib.Strings.String.StringSyntax.
Import ListNotations.

Delimit Scope string_scope with string.

#[local] Set Warnings "-inexact-float".

Local Open Scope Z_scope.

(** ** Byte strings *)

Definition bytes := list byte.

Fixpoint bytes_eqb (a b : bytes) : bool :=
  match a, b with
  | [], [] => true
  | x :: a', y :: b' => Byte.eqb x y && bytes_eqb a' b'
  | _, _ => false
  end.

(** [buf.startswith(sub)] *)
Fixpoint startswith (sub buf : bytes) : bool :=
  match sub, buf with
  | [], _ => true
  | _ :: _, [] => false
  | x :: sub', y :: buf' => Byte.eqb x y && startswith sub' buf'
  end.

(** [buf.find(sub)]: the lowest index at which [sub] occurs in [buf].
    Python returns [-1] when there is none; here that is [None]. *)
Fixpoint find (sub buf : bytes) : option nat :=
  if startswith sub buf then Some 0%nat
  else match buf with
       | [] => None
       | _ :: rest => option_map S (find sub rest)
       end.

(** [buf[-n:]] for [n > 0]: the last [n] bytes, the whole of [buf] when it
    is shorter. *)
Definition last_bytes (n : nat) (buf : bytes) : bytes :=
  skipn (length buf - n) buf.

(** [buf[i:j]] for [0 <= i <= j]. *)
Definition slice (i j : nat) (buf : bytes) : bytes :=
  firstn (j - i) (skipn i buf).

(** ** Constants of the module *)

Definition FRAME_HEADER : bytes := [xaa; xff; x03; x00].
Definition FRAME_TAIL : bytes := [x55; xcc].
Definition FRAME_LEN : nat := 30.
Definition TARGETS_PER_FRAME : nat := 3.

Definition OBJECT_TYPE_UNKNOWN : Z := 0.
Definition OBJECT_TYPE_PERSON : Z := 1.
Definition OBJECT_TYPE_OBJECT : Z := 2.
Definition OBJECT_TYPE_GHOST : Z := 3.

(** ** RD03DRadar: the frame synchronizer *)

(** One pass through the body of the [while True] loop of
    [_extract_frame_from_buffer], on the buffer [buf].  The pass either
    returns ([Return r buf'], with [r] the returned frame or [None]) or
    reaches [continue] with the buffer [buf']. *)
Inductive pass :=
| Return (r : option bytes) (buf' : bytes)
| Continue (buf' : bytes).

Definition extract_pass (buf : bytes) : pass :=
  match find FRAME_HEADER buf with
  | None =>
      Return None (if (3 <? length buf)%nat then last_bytes 3 buf else buf)
  | Some idx =>
      if (length buf - idx <? FRAME_LEN)%nat then Return None buf
      else
        let frame := slice idx (idx + FRAME_LEN) buf in
        let buf' := skipn (idx + FRAME_LEN) buf in
        if negb (bytes_eqb (last_bytes 2 frame) FRAME_TAIL)
        then Continue buf'
        else Return (Some frame) buf'
  end.

(** The loop, with a bound on the number of passes.  Every [continue]
    follows the removal of at least [FRAME_LEN] bytes, so [length buf]
    passes are never used up ([extract_loop_fuel] below); the last branch
    is never taken from [_extract_frame_from_buffer]. *)
Fixpoint extract_loop (fuel : nat) (buf : bytes) : option bytes * bytes :=
  match extract_pass buf with
  | Return r buf' => (r, buf')
  | Continue buf' =>
      match fuel with
      | O => (None, buf')
      | S fuel' => extract_loop fuel' buf'
      end
  end.

(** [_extract_frame_from_buffer]: the returned frame (or [None]) and the
    new value of [self.buffer]. *)
Definition _extract_frame_from_buffer (buf : bytes) : option bytes * bytes :=
  extract_loop (length buf) buf.

(** [read_frame], where [chunk] is what [self.ser.read(64)] returned: at
    most 64 bytes, possibly none.  (The [SerialException] path returns
    [None] and leaves the buffer as it is; it is [read_frame_error].) *)
Definition read_frame (buf chunk : bytes) : option bytes * bytes :=
  _extract_frame_from_buffer (buf ++ chunk).

Definition read_frame_error (buf : bytes) : option bytes * bytes :=
  (None, buf).

(** A run of the reader over successive serial reads: the frames returned
    by the calls of [read_frame], in order, and the final buffer. *)
Fixpoint read_frames (buf : bytes) (chunks : list bytes) : list bytes * bytes :=
  match chunks with
  | [] => ([], buf)
  | chunk :: rest =>
      let '(r, buf1) := read_frame buf chunk in
      let '(frames, buf2) := read_frames buf1 rest in
      (match r with Some f => f :: frames | None => frames end, buf2)
  end.

(** The stream cut into one-byte reads. *)
Definition bytewise (stream : bytes) : list bytes :=
  map (fun b => [b]) stream.

(** ** RD03DRadar: the target decoder *)

(** [_decode_signed_mag] *)
Definition _decode_signed_mag (u16 : Z) : Z :=
  if u16 =? 0 then 0
  else
    let sign_positive := negb (Z.land u16 0x8000 =? 0) in
    let mag := Z.land u16 0x7FFF in
    if sign_positive then mag else - mag.

(** One item of [struct.unpack("<H", ...)]: two bytes, low byte first. *)
Definition unpack_H (b0 b1 : byte) : Z :=
  Z.of_N (Byte.to_N b0) + 256 * Z.of_N (Byte.to_N b1).

(** [struct.unpack_from("<HHHH", segment, 0)]; [None] stands for the
    [struct.error] raised on a buffer of fewer than 8 bytes. *)
Definition unpack_HHHH (segment : bytes) : option (Z * Z * Z * Z) :=
  match segment with
  | a0 :: a1 :: b0 :: b1 :: c0 :: c1 :: d0 :: d1 :: _ =>
      Some (unpack_H a0 a1, unpack_H b0 b1, unpack_H c0 c1, unpack_H d0 d1)
  | _ => None
  end.

(** [int(math.hypot(x, y))] on integer arguments.  [math.hypot] returns
    the binary64 value nearest to the square root of [x*x + y*y], and
    [int] drops its fractional part; for the 15-bit magnitudes the
    decoder produces that is the integer square root. *)
Definition int_hypot (x y : Z) : Z := Z.sqrt (x * x + y * y).

(** A decoded target (the dict built by [parse_targets]); [target_id] is
    the key ["id"]. *)
Record Target := mkTarget {
  target_id : Z;
  x_mm : Z;
  y_mm : Z;
  r_mm : Z;
  speed_cm_s : Z;
  dist_gate_mm : Z
}.

Definition zero_segment : bytes := repeat x00 8.

(** The body of the [for idx in range(TARGETS_PER_FRAME)] loop for one
    [idx]: the target appended for the slot, if any.  The outer [None] is
    an exception. *)
Definition parse_slot (frame : bytes) (idx : nat) : option (option Target) :=
  let offset := (4 + 8 * idx)%nat in
  let segment := slice offset (offset + 8) frame in
  if bytes_eqb segment zero_segment then Some None
  else
    match unpack_HHHH segment with
    | None => None
    | Some (x_raw, y_raw, v_raw, d_raw) =>
        let x := _decode_signed_mag x_raw in
        let y := _decode_signed_mag y_raw in
        let speed := _decode_signed_mag v_raw in
        let dist_gate := d_raw in
        let r := int_hypot x y in
        Some (Some (mkTarget (Z.of_nat idx + 1) x y r speed dist_gate))
    end.

Fixpoint parse_slots (frame : bytes) (idxs : list nat) : option (list Target) :=
  match idxs with
  | [] => Some []
  | idx :: rest =>
      match parse_slot frame idx with
      | None => None
      | Some slot =>
          match parse_slots frame rest with
          | None => None
          | Some targets =>
              Some (match slot with Some t => t :: targets | None => targets end)
          end
      end
  end.

(** [parse_targets]; [None] stands for the [AssertionError] of
    [assert len(frame) == FRAME_LEN]. *)
Definition parse_targets (frame : bytes) : option (list Target) :=
  if negb (length frame =? FRAME_LEN)%nat then None
  else parse_slots frame (seq 0 TARGETS_PER_FRAME).

(** ** Python floats

    A Python float is an IEEE 754 binary64 number, as Rocq's primitive
    floats are; both round to nearest, ties to even.  A decimal literal
    such as [0.05] denotes, in Python and here, the binary64 number
    nearest to it. *)

(** [float(n)] and the implicit conversion of an [int] operand, for
    [|n| < 2^63].  Beyond that the definition wraps around and is not
    Python's conversion (which rounds on, and raises OverflowError past
    the largest float); what is proved of it is stated for integers
    within the range. *)
Definition float_of_int (n : Z) : float :=
  if n <? 0 then PrimFloat.opp (PrimFloat.of_uint63 (Uint63.of_Z (- n)))
  else PrimFloat.of_uint63 (Uint63.of_Z n).

(** [min(a, b)] and [max(a, b)] of two floats: the first argument unless
    the second is strictly smaller (larger). *)
Definition py_min (a b : float) : float := if (b <? a)%float then b else a.
Definition py_max (a b : float) : float := if (a <? b)%float then b else a.

Definition POSITION_SCALE : float := 3.0%float.
Definition MAX_POSITION_METERS : float := 10.0%float.

(** ** struct.pack *)

Definition byte_of_Z (z : Z) : byte :=
  match Byte.of_N (Z.to_N (z mod 256)) with
  | Some b => b
  | None => x00
  end.

(** The four bytes of a 32-bit word, least significant first. *)
Definition le32 (w : Z) : bytes :=
  [byte_of_Z w; byte_of_Z (Z.shiftr w 8);
   byte_of_Z (Z.shiftr w 16); byte_of_Z (Z.shiftr w 24)].

Definition prec32 : Z := 24.
Definition emax32 : Z := 128.

(** The binary32 number nearest to a binary64 one, as a sign, a
    mantissa and an exponent. *)
Definition to_binary32 (x : float) : spec_float :=
  match Prim2SF x with
  | S754_finite s m e => binary_round prec32 emax32 s m e
  | y => y
  end.

(** The IEEE 754 interchange encoding of a binary32 number: sign bit,
    8 bits of biased exponent, 23 bits of fraction. *)
Definition bits_of_binary32 (x : spec_float) : Z :=
  let sign (s : bool) := if s then Z.shiftl 1 31 else 0 in
  match x with
  | S754_zero s => sign s
  | S754_infinity s => sign s + 0x7F800000
  | S754_nan => 0x7FC00000
  | S754_finite s m e =>
      if Z.pos m <? Z.shiftl 1 23 then sign s + Z.pos m
      else sign s + Z.shiftl (e + 150) 23 + (Z.pos m - Z.shiftl 1 23)
  end.

(** The four bytes [struct.pack("<f", x)] yields when it succeeds. *)
Definition f32le (x : float) : bytes :=
  le32 (bits_of_binary32 (to_binary32 x)).

(** [struct.pack("<f", x)]; [None] stands for the [OverflowError] raised
    when a finite [x] is too large for binary32. *)
Definition pack_f (x : float) : option bytes :=
  match Prim2SF x, to_binary32 x with
  | S754_finite _ _ _, S754_infinity _ => None
  | _, _ => Some (f32le x)
  end.

(** [struct.pack("<B", n)] for [0 <= n <= 255]. *)
Definition pack_B (n : Z) : bytes := [byte_of_Z n].

(** ** RadarDataCharacteristic: classifier and packet encoder *)

(** [classify_target] *)
Definition classify_target (target : Target) : Z * float :=
  let speed_m_s := (float_of_int (Z.abs (speed_cm_s target)) / 100.0)%float in
  let r_m := (float_of_int (r_mm target) / 1000.0)%float in
  if (r_m <? 0.5)%float || (8.0 <? r_m)%float then (OBJECT_TYPE_GHOST, 0.2%float)
  else if (4.0 <? speed_m_s)%float then (OBJECT_TYPE_GHOST, 0.3%float)
  else if (speed_m_s <? 0.05)%float then (OBJECT_TYPE_OBJECT, 0.8%float)
  else (OBJECT_TYPE_PERSON, 0.85%float).

(** The five float fields and the type byte that [pack_radar_data] hands
    to [struct.pack]. *)
Record packet_fields := mkFields {
  vis_x : float;
  vis_y : float;
  depth_m : float;
  snr_db : float;
  confidence : float;
  object_type_byte : Z
}.

Definition radar_fields (target : Target) : packet_fields :=
  let x_m := (float_of_int (x_mm target) / 1000.0)%float in
  let y_m := (float_of_int (y_mm target) / 1000.0)%float in
  let depth_m := (float_of_int (r_mm target) / 1000.0)%float in
  let vis_x := (x_m * POSITION_SCALE)%float in
  let vis_y := (y_m * POSITION_SCALE)%float in
  let vis_x := py_max (- MAX_POSITION_METERS)%float (py_min MAX_POSITION_METERS vis_x) in
  let vis_y := py_max (- MAX_POSITION_METERS)%float (py_min MAX_POSITION_METERS vis_y) in
  let snr_db := (40.0 - depth_m * 5.0)%float in
  let snr_db :=
    if (snr_db <? 5.0)%float then 5.0%float
    else if (35.0 <? snr_db)%float then 35.0%float
    else snr_db in
  let confidence := ((snr_db - 5.0) / 30.0)%float in
  let confidence :=
    if (confidence <? 0.0)%float then 0.0%float
    else if (1.0 <? confidence)%float then 1.0%float
    else confidence in
  let object_type := fst (classify_target target) in
  let object_type_byte := Z.land object_type 0xFF in
  mkFields vis_x vis_y depth_m snr_db confidence object_type_byte.

(** [struct.pack('<fffffB', ...)] on the fields. *)
Definition pack_fffffB (p : packet_fields) : option bytes :=
  match pack_f (vis_x p), pack_f (vis_y p), pack_f (depth_m p),
        pack_f (snr_db p), pack_f (confidence p) with
  | Some a, Some b, Some c, Some d, Some e =>
      Some (a ++ b ++ c ++ d ++ e ++ pack_B (object_type_byte p))
  | _, _, _, _, _ => None
  end.

(** [pack_radar_data] *)
Definition pack_radar_data (target : Target) : option bytes :=
  pack_fffffB (radar_fields target).

(** ** The relay: queue, characteristic, reader and publish tick *)

(** A batch is the non-empty target list of one frame.  The queue made in
    [main] is [queue.Queue(maxsize=10)]: a FIFO whose contents are listed
    oldest first. *)
Definition batch := list Target.
Definition Queue := list batch.
Definition maxsize : nat := 10.

(** [Queue.put(item)] with its default [block=True, timeout=None]: with a
    free slot the item is appended; on a full queue the caller waits in
    [put] until another thread removes an item. *)
Inductive put_result :=
| Put (q' : Queue)
| Blocks.

Definition Queue_put (q : Queue) (item : batch) : put_result :=
  if (length q <? maxsize)%nat then Put (q ++ [item]) else Blocks.

Definition Queue_empty (q : Queue) : bool :=
  match q with [] => true | _ :: _ => false end.

(** [Queue.get_nowait()]; [None] stands for [queue.Empty]. *)
Definition Queue_get_nowait (q : Queue) : option (batch * Queue) :=
  match q with
  | [] => None
  | item :: q' => Some (item, q')
  end.

(** One iteration of the loop of [radar_reader_thread], given what the
    serial read returned. *)
Inductive reader_result :=
| Looped (buf' : bytes) (q' : Queue)
| Waiting (buf' : bytes) (targets : batch)
| Raised.

Definition radar_reader_iteration (buf chunk : bytes) (q : Queue) : reader_result :=
  let '(frame, buf') := read_frame buf chunk in
  match frame with
  | None => Looped buf' q
  | Some f =>
      match f with
      | [] => Looped buf' q
      | _ :: _ =>
          match parse_targets f with
          | None => Raised
          | Some [] => Looped buf' q
          | Some (t :: ts) =>
              match Queue_put q (t :: ts) with
              | Put q' => Looped buf' q'
              | Blocks => Waiting buf' (t :: ts)
              end
          end
      end
  end.

(** The state the publish side works on: the attributes [notifying] and
    [value] of the radar characteristic, whether [set_radar_queue] has
    attached the queue ([self.radar_queue] is then the queue of [main],
    the same object the reader puts into), and that queue's contents. *)
Record Relay := mkRelay {
  notifying : bool;
  value : bytes;
  radar_queue_attached : bool;
  data_queue : Queue
}.

(** [StartNotify] and [StopNotify] *)
Definition StartNotify (st : Relay) : Relay :=
  if notifying st then st
  else mkRelay true (value st) (radar_queue_attached st) (data_queue st).

Definition StopNotify (st : Relay) : Relay :=
  if negb (notifying st) then st
  else mkRelay false (value st) (radar_queue_attached st) (data_queue st).

Definition set_radar_queue (st : Relay) : Relay :=
  mkRelay (notifying st) (value st) true (data_queue st).

(** [update_value]: the new state and the [PropertiesChanged] signals
    emitted (each carries the new value). *)
Definition update_value (st : Relay) (v : bytes) : Relay * list bytes :=
  let st' := mkRelay (notifying st) v (radar_queue_attached st) (data_queue st) in
  if notifying st' then (st', [v]) else (st', []).

(** The loop [while not q.empty(): targets = q.get_nowait()], started
    with the current value of [targets]: each round removes the oldest
    batch and keeps it in [targets] ([drain_loop] below). *)
Fixpoint drain (q : Queue) (targets : option batch) : option batch * Queue :=
  match q with
  | [] => (targets, [])
  | item :: q' => drain q' (Some item)
  end.

(** [sorted(targets, key=lambda t: t["r_mm"])]: a stable sort, here by
    insertion from the right. *)
Fixpoint insert_by_r_mm (t : Target) (l : list Target) : list Target :=
  match l with
  | [] => [t]
  | u :: l' => if r_mm t <=? r_mm u then t :: u :: l' else u :: insert_by_r_mm t l'
  end.

Fixpoint sorted_by_r_mm (l : list Target) : list Target :=
  match l with
  | [] => []
  | t :: l' => insert_by_r_mm t (sorted_by_r_mm l')
  end.

(** What one call of [update_radar_data] did besides returning [True]. *)
Inductive tick_outcome :=
| Published (signals : list bytes)
| Failed.

(** [update_radar_data]: the state after the call and its outcome.
    [Failed] is an exception out of [pack_radar_data], raised after the
    queue was drained. *)
Definition update_radar_data (st : Relay) : Relay * tick_outcome :=
  if negb (notifying st) || negb (radar_queue_attached st) then (st, Published [])
  else
    let '(targets, q') := drain (data_queue st) None in
    let st1 := mkRelay (notifying st) (value st) (radar_queue_attached st) q' in
    match targets with
    | None => (st1, Published [])
    | Some [] => (st1, Published [])
    | Some (t :: ts) =>
        match sorted_by_r_mm (t :: ts) with
        | [] => (st1, Published [])
        | target :: _ =>
            match pack_radar_data target with
            | None => (st1, Failed)
            | Some packet =>
                let '(st2, signals) := update_value st1 packet in
                (st2, Published signals)
            end
        end
    end.

(** ** Notions used in the statements *)

(** All the frames the buffer holds: what repeated calls of
    [_extract_frame_from_buffer] return until one returns [None], and the
    buffer left by that call. *)
Fixpoint scan (fuel : nat) (buf : bytes) : list bytes * bytes :=
  match extract_pass buf with
  | Return None buf' => ([], buf')
  | Return (Some f) buf' =>
      match fuel with
      | O => ([f], buf')
      | S fuel' => let '(fs, buf'') := scan fuel' buf' in (f :: fs, buf'')
      end
  | Continue buf' =>
      match fuel with
      | O => ([], buf')
      | S fuel' => scan fuel' buf'
      end
  end.

Definition scan_all (buf : bytes) : list bytes * bytes := scan (length buf) buf.

(** The part of a buffer that matters to later calls: from its first
    header on, or its last three bytes when it holds no header. *)
Definition norm (buf : bytes) : bytes :=
  match find FRAME_HEADER buf with
  | Some i => skipn i buf
  | None => last_bytes 3 buf
  end.

(** A buffer on which [_extract_frame_from_buffer] returns [None] and
    changes nothing. *)
Definition stable (buf : bytes) : Prop := extract_pass buf = Return None buf.

Definition frames_of_result (r : option bytes) : list bytes :=
  match r with Some f => [f] | None => [] end.

(** A well-formed frame: 30 bytes, header first, tail last. *)
Definition valid_frame (f : bytes) : bool :=
  (length f =? FRAME_LEN)%nat && startswith FRAME_HEADER f
  && bytes_eqb (last_bytes 2 f) FRAME_TAIL.

(** The spec's [round(sqrt(x² + y²))]: the integer nearest to the
    Euclidean norm (a square root of an integer is never half way between
    two integers). *)
Definition round_hypot (x y : Z) : Z := (Z.sqrt (4 * (x * x + y * y)) + 1) / 2.

(** The spec's [clamp(v, lo, hi)]. *)
Definition clamp (v lo hi : float) : float :=
  if (v <? lo)%float then lo else if (hi <? v)%float then hi else v.

(** ** Sample data *)

(** A frame whose first slot holds x = -100 mm, y = +1000 mm,
    speed = +50 cm/s, distance gate 360. *)
Definition frame_a : bytes :=
  FRAME_HEADER
  ++ [x64; x00; xe8; x83; x32; x80; x68; x01]
  ++ repeat x00 16
  ++ FRAME_TAIL.

(** A frame whose first slot holds x = +2, y = +2 and whose second slot
    holds x = +3000, y = +4000. *)
Definition frame_b : bytes :=
  FRAME_HEADER
  ++ [x02; x80; x02; x80; x00; x00; x00; x00]
  ++ [xb8; x8b; xa0; x8f; x00; x00; x00; x00]
  ++ repeat x00 8
  ++ FRAME_TAIL.


(** The spec's signed-magnitude decoding: 0 maps to 0; otherwise bit 15
    is the sign flag (set = positive) and bits 0-14 the magnitude. *)
Definition signed_mag (u : Z) : Z :=
  if u =? 0 then 0
  else if Z.testbit u 15 then Z.land u 0x7FFF else - Z.land u 0x7FFF.

(** The bytes of slot [idx] of a frame (0-based), and the [k]-th
    little-endian 16-bit field of that slot. *)
Definition slot_bytes (frame : bytes) (idx : nat) : bytes :=
  firstn 8 (skipn (4 + 8 * idx) frame).

Definition field (frame : bytes) (idx k : nat) : Z :=
  unpack_H (nth (4 + 8 * idx + 2 * k) frame x00)
           (nth (5 + 8 * idx + 2 * k) frame x00).

(** The targets a slot contributes. *)
Definition slot_targets (frame : bytes) (idx : nat) : list Target :=
  match parse_slot frame idx with
  | Some (Some t) => [t]
  | _ => []
  end.

(** ** The spec's classifier and packet fields *)

(** [a < b] on rationals. *)
Definition Qltb (a b : Q) : bool := negb (Qle_bool b a).

(** The spec's decision rule, first match wins, on the exact quotients
    range_m = r_mm/1000 and |speed| = |speed_cm_s|/100 (m/s). *)
Definition classify_spec (t : Target) : Z * float :=
  let range_m := r_mm t # 1000 in
  let speed_m_s := Z.abs (speed_cm_s t) # 100 in
  if Qltb range_m (5 # 10) || Qltb (8 # 1) range_m then (OBJECT_TYPE_GHOST, 0.2%float)
  else if Qltb (4 # 1) speed_m_s then (OBJECT_TYPE_GHOST, 0.3%float)
  else if Qltb speed_m_s (5 # 100) then (OBJECT_TYPE_OBJECT, 0.8%float)
  else (OBJECT_TYPE_PERSON, 0.85%float).

(** The spec's packet fields. *)
Definition spec_fields (t : Target) : packet_fields :=
  let scaled (v : Z) :=
    clamp (float_of_int v / 1000.0 * 3.0)%float (-10.0)%float 10.0%float in
  let depth := (float_of_int (r_mm t) / 1000.0)%float in
  let signal_quality_db := clamp (40.0 - depth * 5.0)%float 5.0%float 35.0%float in
  mkFields (scaled (x_mm t)) (scaled (y_mm t)) depth signal_quality_db
           (clamp ((signal_quality_db - 5.0) / 30.0)%float 0.0%float 1.0%float)
           (fst (classify_spec t) mod 256).

(** The layout "five little-endian binary32 floats, then one byte". *)
Definition encode_fields (p : packet_fields) : bytes :=
  f32le (vis_x p) ++ f32le (vis_y p) ++ f32le (depth_m p)
  ++ f32le (snr_db p) ++ f32le (confidence p) ++ [byte_of_Z (object_type_byte p)].

(** ** Checks by enumeration *)

(** [P z && P (z+1) && ...] over [n] consecutive integers. *)
Fixpoint all_from (n : nat) (z : Z) (P : Z -> bool) : bool :=
  match n with
  | O => true
  | S k => P z && all_from k (z + 1) P
  end.

(** Of absolute value at most [2^20], hence within binary32. *)
Definition small (x : float) : bool := (abs x <=? 0x1p20)%float.

(** For a range value: the two range tests of the classifier agree with
    the thresholds 500 and 8000 mm. *)
Definition range_ok (r : Z) : bool :=
  let r_m := (float_of_int r / 1000.0)%float in
  Bool.eqb (r_m <? 0.5)%float (r <? 500)
  && Bool.eqb (8.0 <? r_m)%float (8000 <? r).

(** For an absolute speed: the two speed tests agree with the thresholds
    400 and 5 cm/s. *)
Definition speed_ok (a : Z) : bool :=
  let speed_m_s := (float_of_int a / 100.0)%float in
  Bool.eqb (4.0 <? speed_m_s)%float (400 <? a)
  && Bool.eqb (speed_m_s <? 0.05)%float (a <? 5).

(** For a range value: depth, signal quality and confidence are small. *)
Definition depth_ok (r : Z) : bool :=
  let p := radar_fields (mkTarget 1 0 0 r 0 0) in
  small (depth_m p) && small (snr_db p) && small (confidence p).

(** For a coordinate: the scaled value is strictly below -10, strictly
    between -10 and 10, or strictly above 10, and the clamped value is
    small. *)
Definition position_ok (x : Z) : bool :=
  let v := (float_of_int x / 1000.0 * POSITION_SCALE)%float in
  let a := (v <? 10.0)%float in
  let b := (-10.0 <? v)%float in
  let c := (v <? -10.0)%float in
  let d := (10.0 <? v)%float in
  ((a && b && negb c && negb d) || (a && negb b && c && negb d)
   || (negb a && b && negb c && d))
  && small (vis_x (radar_fields (mkTarget 1 x 0 0 0 0))).

(** ** Notions for the relay statements *)

(** A batch as the reader enqueues it: the non-empty target list decoded
    from some frame. *)
Definition decoded_batch (b : batch) : Prop :=
  b <> [] /\ exists frame, parse_targets frame = Some b.

(** [target] is the closest target of the batch [b]: of smallest
    [r_mm], and of smallest slot index among those. *)
Definition closest (target : Target) (b : batch) : Prop :=
  In target b /\
  (forall u, In u b -> r_mm target <= r_mm u) /\
  (forall u, In u b -> r_mm u = r_mm target -> target_id target <= target_id u).

(** The batches decoded from the sample frames. *)
Definition batch_a : batch := [mkTarget 1 (-100) 1000 1004 50 360].
Definition batch_b : batch :=
  [mkTarget 1 2 2 2 0 0; mkTarget 2 3000 4000 5000 0 0].

(** The packet for the target of [batch_a]. *)
Definition packet_a : bytes :=
  [x9a; x99; x99; xbe;  x00; x00; x40; x40;  x12; x83; x80; x3f;
   x85; xeb; x0b; x42;  x4f; xd4; x7f; x3f;  x01].

(** The packet for the first target of [batch_b]. *)
Definition packet_b : bytes :=
  [xa6; x9b; xc4; x3b;  xa6; x9b; xc4; x3b;  x6f; x12; x03; x3b;
   x00; x00; x0c; x42;  x00; x00; x80; x3f;  x03].

(** ** Further notions: reads followed by empty reads *)

(** Each chunk read, then [n] reads that return no bytes (the serial
    timeout): the reader's calls when the bytes arrive in bursts. *)
Definition with_idle_reads (n : nat) (chunks : list bytes) : list bytes :=
  flat_map (fun chunk => chunk :: repeat [] n) chunks.

(** The non-zero slots of a frame. *)
Definition live_slots (frame : bytes) : list nat :=
  filter (fun idx => negb (bytes_eqb (slot_bytes frame idx) zero_segment))
         (seq 0 TARGETS_PER_FRAME).

(** ** Further notions: ranges of the packet fields *)

(** The float fields lie within their documented ranges. *)
Definition fields_in_range (p : packet_fields) : bool :=
  ((-10.0 <=? vis_x p) && (vis_x p <=? 10.0)
   && (-10.0 <=? vis_y p) && (vis_y p <=? 10.0)
   && (0.0 <=? depth_m p)
   && (5.0 <=? snr_db p) && (snr_db p <=? 35.0)
   && (0.0 <=? confidence p) && (confidence p <=? 1.0))%float.

(** Where the signal quality and the confidence saturate, as a function
    of the range in millimetres. *)
Definition saturation (r : Z) (p : packet_fields) : bool :=
  if r <=? 1000 then ((snr_db p =? 35.0) && (confidence p =? 1.0))%float
  else if 7000 <=? r then ((snr_db p =? 5.0) && (confidence p =? 0.0))%float
  else ((5.0 <? snr_db p) && (snr_db p <? 35.0)
        && (0.0 <? confidence p) && (confidence p <? 1.0))%float.

Definition position_range_ok (x : Z) : bool :=
  let p := radar_fields (mkTarget 1 x 0 0 0 0) in
  ((-10.0 <=? vis_x p) && (vis_x p <=? 10.0))%float.

Definition depth_range_ok (r : Z) : bool :=
  let p := radar_fields (mkTarget 1 0 0 r 0 0) in
  ((0.0 <=? depth_m p)
   && (5.0 <=? snr_db p) && (snr_db p <=? 35.0)
   && (0.0 <=? confidence p) && (confidence p <=? 1.0))%float
  && saturation r p.

(** ** The two threads of [main], step by step

    [main] makes the radar (with an empty buffer) and the queue, starts
    [radar_reader_thread], then builds the characteristic (not notifying,
    no value, no queue), attaches the queue and runs the main loop.  The
    main loop runs the 50 ms tick and the calls of BlueZ one at a time;
    the reader thread runs between any two operations of the tick.  The
    queue's operations are atomic (the queue holds its lock). *)

(** Where the main loop is inside [update_radar_data]: not in it, or in
    its loop with the current value of [targets]. *)
Inductive tick_state :=
| NotInTick
| Draining (targets : option batch).

Record System := mkSystem {
  radar_buffer : bytes;
  reader_pending : option batch;
  tick : tick_state;
  relay : Relay
}.

Definition set_data_queue (st : Relay) (q : Queue) : Relay :=
  mkRelay (notifying st) (value st) (radar_queue_attached st) q.

(** What [update_radar_data] does after its loop, with the last batch
    the loop removed. *)
Definition publish (st : Relay) (targets : option batch) : Relay * tick_outcome :=
  match targets with
  | None => (st, Published [])
  | Some [] => (st, Published [])
  | Some (t :: ts) =>
      match sorted_by_r_mm (t :: ts) with
      | [] => (st, Published [])
      | target :: _ =>
          match pack_radar_data target with
          | None => (st, Failed)
          | Some packet =>
              let '(st2, signals) := update_value st packet in
              (st2, Published signals)
          end
      end
  end.

(** What a step shows outside: nothing, or the outcome of a tick that
    went through its loop. *)
Inductive event :=
| Tau
| TickDone (o : tick_outcome).

Inductive step : System -> event -> System -> Prop :=
| reader_loops (s : System) (chunk buf' : bytes) (q' : Queue) :
    reader_pending s = None -> (length chunk <= 64)%nat ->
    radar_reader_iteration (radar_buffer s) chunk (data_queue (relay s))
    = Looped buf' q' ->
    step s Tau (mkSystem buf' None (tick s) (set_data_queue (relay s) q'))
| reader_blocks (s : System) (chunk buf' : bytes) (b : batch) :
    reader_pending s = None -> (length chunk <= 64)%nat ->
    radar_reader_iteration (radar_buffer s) chunk (data_queue (relay s))
    = Waiting buf' b ->
    step s Tau (mkSystem buf' (Some b) (tick s) (relay s))
| reader_resumes (s : System) (b : batch) (q' : Queue) :
    reader_pending s = Some b ->
    Queue_put (data_queue (relay s)) b = Put q' ->
    step s Tau (mkSystem (radar_buffer s) None (tick s)
                         (set_data_queue (relay s) q'))
| tick_returns_at_once (s : System) :
    tick s = NotInTick ->
    negb (notifying (relay s)) || negb (radar_queue_attached (relay s)) = true ->
    step s Tau s
| tick_enters_loop (s : System) :
    tick s = NotInTick ->
    negb (notifying (relay s)) || negb (radar_queue_attached (relay s)) = false ->
    step s Tau (mkSystem (radar_buffer s) (reader_pending s) (Draining None)
                         (relay s))
| tick_gets (s : System) (targets : option batch) (item : batch) (q' : Queue) :
    tick s = Draining targets ->
    Queue_empty (data_queue (relay s)) = false ->
    Queue_get_nowait (data_queue (relay s)) = Some (item, q') ->
    step s Tau (mkSystem (radar_buffer s) (reader_pending s)
                         (Draining (Some item)) (set_data_queue (relay s) q'))
| tick_publishes (s : System) (targets : option batch)
                 (st' : Relay) (o : tick_outcome) :
    tick s = Draining targets ->
    Queue_empty (data_queue (relay s)) = true ->
    publish (relay s) targets = (st', o) ->
    step s (TickDone o) (mkSystem (radar_buffer s) (reader_pending s)
                                  NotInTick st')
| start_notify (s : System) :
    tick s = NotInTick ->
    step s Tau (mkSystem (radar_buffer s) (reader_pending s) NotInTick
                         (StartNotify (relay s)))
| stop_notify (s : System) :
    tick s = NotInTick ->
    step s Tau (mkSystem (radar_buffer s) (reader_pending s) NotInTick
                         (StopNotify (relay s)))
| attach_queue (s : System) :
    tick s = NotInTick ->
    step s Tau (mkSystem (radar_buffer s) (reader_pending s) NotInTick
                         (set_radar_queue (relay s))).

Definition initial : System :=
  mkSystem [] None NotInTick (mkRelay false [] false []).

Inductive steps : System -> list event -> System -> Prop :=
| steps_nil (s : System) : steps s [] s
| steps_cons (s s1 s2 : System) (e : event) (es : list event) :
    step s e s1 -> steps s1 es s2 -> steps s (e :: es) s2.

Definition reachable (s : System) : Prop := exists es, steps initial es s.

(** What holds in every reachable state. *)
Definition relay_invariant (s : System) : Prop :=
  (length (data_queue (relay s)) <= maxsize)%nat /\
  Forall decoded_batch (data_queue (relay s)) /\
  (forall b, reader_pending s = Some b -> decoded_batch b) /\
  (forall b, tick s = Draining (Some b) -> decoded_batch b) /\
  (tick s <> NotInTick ->
   notifying (relay s) = true /\ radar_queue_attached (relay s) = true).

(** The reader waits in [put] and nobody is subscribed. *)
Definition stalled (s : System) : Prop :=
  notifying (relay s) = false /\ tick s = NotInTick /\
  length (data_queue (relay s)) = maxsize /\
  exists b, reader_pending s = Some b.

(** The outcomes of the ticks of a run, in order. *)
Fixpoint outcomes (es : list event) : list tick_outcome :=
  match es with
  | [] => []
  | Tau :: es' => outcomes es'
  | TickDone o :: es' => o :: outcomes es'
  end.

(** A state inside a tick that has just removed [batch_a] from the queue,
    and a state in which the reader waits on a full queue while nobody is
    subscribed. *)
Definition sample_draining : System :=
  mkSystem [] None (Draining (Some batch_a)) (mkRelay true [] true []).

Definition sample_stalled : System :=
  mkSystem [] (Some batch_a) NotInTick (mkRelay false [] false (repeat batch_a 10)).

(** ** Characteristic.WriteValue and CommandCharacteristic *)

Definition CHAR_RADAR_DATA_UUID : String.string :=
  "00002a01-0000-1000-8000-00805f9b34fb"%string.
Definition CHAR_COMMAND_UUID : String.string :=
  "00002a02-0000-1000-8000-00805f9b34fb"%string.

(** The radar data characteristic as the command side sees it: the
    attributes the relay uses, and the three kept "for potential future
    use".  [object_tracker] is a dict that nothing in the program fills;
    its entries are of a type [A] left open. *)
Record RadarChar (A : Type) := mkRadarChar {
  char_relay : Relay;
  object_tracker : list A;
  next_object_id : Z;
  base_timestamp : Z
}.

Arguments mkRadarChar {A}.
Arguments char_relay {A}.
Arguments object_tracker {A}.
Arguments next_object_id {A}.
Arguments base_timestamp {A}.

(** [CommandCharacteristic.handle_command], acting on the radar
    characteristic it holds; [now_ms] is [int(time.time() * 1000)] at the
    call. *)
Definition handle_command {A : Type} (now_ms : Z) (data : bytes)
    (radar_char : RadarChar A) : RadarChar A :=
  let raw := data in
  if (length raw =? 0)%nat then radar_char
  else
    let cmd := nth 0 raw x00 in
    if Byte.eqb cmd x01
    then mkRadarChar (char_relay radar_char) [] 1 (base_timestamp radar_char)
    else if Byte.eqb cmd x02
    then mkRadarChar (char_relay radar_char) (object_tracker radar_char)
                     (next_object_id radar_char) now_ms
    else radar_char.

(** The two characteristics [setup_gatt_server] registers: the radar
    data characteristic, and the command characteristic, which holds the
    former as [self.radar_char].  [self.value] of the radar data
    characteristic is [value] of its relay; the command characteristic
    has a [self.value] of its own. *)
Inductive Characteristic := RadarDataCharacteristic | CommandCharacteristic.

Definition uuid (self : Characteristic) : String.string :=
  match self with
  | RadarDataCharacteristic => CHAR_RADAR_DATA_UUID
  | CommandCharacteristic => CHAR_COMMAND_UUID
  end.

Record Service (A : Type) := mkService {
  radar_char : RadarChar A;
  command_value : bytes
}.

Arguments mkService {A}.
Arguments radar_char {A}.
Arguments command_value {A}.

(** [self.value = value] on either characteristic. *)
Definition set_value {A : Type} (self : Characteristic) (v : bytes)
    (sv : Service A) : Service A :=
  match self with
  | RadarDataCharacteristic =>
      let rc := radar_char sv in
      let st := char_relay rc in
      mkService
        (mkRadarChar
           (mkRelay (notifying st) v (radar_queue_attached st) (data_queue st))
           (object_tracker rc) (next_object_id rc) (base_timestamp rc))
        (command_value sv)
  | CommandCharacteristic => mkService (radar_char sv) v
  end.

(** [self.handle_command(value)]: only the command characteristic has the
    method; on the other the lookup raises AttributeError ([None]). *)
Definition self_handle_command {A : Type} (now_ms : Z) (self : Characteristic)
    (data : bytes) (sv : Service A) : option (Service A) :=
  match self with
  | RadarDataCharacteristic => None
  | CommandCharacteristic =>
      Some (mkService (handle_command now_ms data (radar_char sv))
                      (command_value sv))
  end.

(** [Characteristic.WriteValue], the method both characteristics
    inherit. *)
Definition WriteValue {A : Type} (now_ms : Z) (self : Characteristic)
    (value : bytes) (sv : Service A) : option (Service A) :=
  let sv1 := set_value self value sv in
  if String.eqb (uuid self) CHAR_COMMAND_UUID
  then self_handle_command now_ms self value sv1
  else Some sv1.

(** ** A tick in progress

    The batch, if any, that the step from [s1] to [s2] took off the
    queue: the queue gets shorter only when the tick's loop removes its
    oldest batch. *)
Definition removed_by (s1 s2 : System) : list batch :=
  if (length (data_queue (relay s2)) <? length (data_queue (relay s1)))%nat
  then firstn 1 (data_queue (relay s1)) else [].

(** [in_tick s0 removed s]: from [s0], outside the tick, the main loop
    entered the loop of [update_radar_data]; since then the two threads
    took any steps that keep it there, reaching [s], and the loop removed
    the batches [removed], oldest first. *)
Inductive in_tick : System -> list batch -> System -> Prop :=
| in_tick_entered (s0 s : System) :
    tick s0 = NotInTick -> step s0 Tau s -> tick s <> NotInTick ->
    in_tick s0 [] s
| in_tick_step (s0 s1 s2 : System) (removed : list batch) :
    in_tick s0 removed s1 -> step s1 Tau s2 ->
    in_tick s0 (removed ++ removed_by s1 s2) s2.

(** The last batch of a list of removed batches, as [targets] holds it. *)
Definition last_removed (removed : list batch) : option batch :=
  match removed with
  | [] => None
  | _ :: _ => Some (last removed [])
  end.

(** A state outside the tick with one queued batch and a subscriber, and
    the states of one tick from it during which the reader enqueues a
    second batch: the loop entered, the second batch enqueued, the first
    batch removed, the second batch removed. *)
Definition sample_active : System :=
  mkSystem [] None NotInTick (mkRelay true [] true [batch_a]).

Definition sample_entered : System :=
  mkSystem [] None (Draining None) (mkRelay true [] true [batch_a]).

Definition sample_enqueued : System :=
  mkSystem [] None (Draining None) (mkRelay true [] true [batch_a; batch_b]).

Definition sample_removed_a : System :=
  mkSystem [] None (Draining (Some batch_a)) (mkRelay true [] true [batch_b]).

Definition sample_removed_b : System :=
  mkSystem [] None (Draining (Some batch_b)) (mkRelay true [] true []).

Definition sample_published : System :=
  mkSystem [] None NotInTick (mkRelay true packet_b true []).

(** A reader waiting with [batch_b] on a full queue. *)
Definition sample_waiting : System :=
  mkSystem [] (Some batch_b) NotInTick (mkRelay true [] true (repeat batch_a 10)).

(** ** The domain of [float_of_int]

    The four integer fields a target's packet is computed from are below
    2^63 in absolute value, where [float_of_int] is Python's conversion. *)
Definition fields_below_2_63 (t : Target) : Prop :=
  Z.abs (x_mm t) < 2 ^ 63 /\ Z.abs (y_mm t) < 2 ^ 63 /\
  Z.abs (r_mm t) < 2 ^ 63 /\ Z.abs (speed_cm_s t) < 2 ^ 63.

(** * Proofs *)

(** ** Byte strings *)

Lemma bytes_eqb_eq (a b : bytes) : bytes_eqb a b = true <-> a = b.
Proof.
  revert b; induction a as [|x a IH]; intros [|y b]; simpl; split;
    try congruence; try reflexivity.
  - intros H. apply andb_true_iff in H as [Hx Hab].
    apply Byte.byte_dec_bl in Hx. apply IH in Hab. congruence.
  - intros H. injection H as -> ->. apply andb_true_iff. split.
    + now apply Byte.byte_dec_lb.
    + now apply IH.
Qed.

Lemma bytes_eqb_neq (a b : bytes) : bytes_eqb a b = false <-> a <> b.
Proof.
  split.
  - intros H E. apply bytes_eqb_eq in E. congruence.
  - intros H. destruct (bytes_eqb a b) eqn:E; [|reflexivity].
    apply bytes_eqb_eq in E. contradiction.
Qed.

Lemma last_bytes_short (n : nat) (buf : bytes) :
  (length buf <= n)%nat -> last_bytes n buf = buf.
Proof.
  intros H. unfold last_bytes.
  replace (length buf - n)%nat with 0%nat by lia. reflexivity.
Qed.

Lemma last_bytes_length (n : nat) (buf : bytes) :
  length (last_bytes n buf) = Nat.min n (length buf).
Proof. unfold last_bytes. rewrite length_skipn. lia. Qed.

Lemma last_bytes_app (n : nat) (a c : bytes) :
  (n <= length c)%nat -> last_bytes n (a ++ c) = last_bytes n c.
Proof.
  intros H. unfold last_bytes. rewrite length_app, skipn_app.
  replace (length a + length c - n - length a)%nat with (length c - n)%nat by lia.
  rewrite skipn_all2 by lia. reflexivity.
Qed.

Section Find.

Variable sub : bytes.

Lemma startswith_length (buf : bytes) :
  startswith sub buf = true -> (length sub <= length buf)%nat.
Proof.
  revert buf. induction sub as [|x s IH]; intros buf H; simpl; [lia|].
  destruct buf as [|y buf]; simpl in *; [discriminate|].
  apply andb_true_iff in H as [_ H]. apply IH in H. lia.
Qed.

Lemma startswith_app (buf c : bytes) :
  (length sub <= length buf)%nat ->
  startswith sub (buf ++ c) = startswith sub buf.
Proof.
  revert buf. induction sub as [|x s IH]; intros buf H; [reflexivity|].
  destruct buf as [|y buf]; simpl in *; [lia|].
  rewrite IH by lia. reflexivity.
Qed.

Lemma startswith_app_true (buf c : bytes) :
  startswith sub buf = true -> startswith sub (buf ++ c) = true.
Proof.
  intros H. rewrite startswith_app; [assumption|].
  now apply startswith_length.
Qed.

Lemma find_bound (buf : bytes) (i : nat) :
  find sub buf = Some i -> (i + length sub <= length buf)%nat.
Proof.
  revert i. induction buf as [|y buf IH]; intros i H.
  - simpl in H. destruct (startswith sub []) eqn:E; [|discriminate].
    injection H as <-. apply startswith_length in E. simpl in *. lia.
  - simpl in H. destruct (startswith sub (y :: buf)) eqn:E.
    + injection H as <-. apply startswith_length in E. simpl in *. lia.
    + destruct (find sub buf) as [j|]; [|discriminate].
      injection H as <-. specialize (IH j eq_refl). simpl. lia.
Qed.

Lemma find_cons (y : byte) (buf : bytes) :
  find sub (y :: buf) =
  if startswith sub (y :: buf) then Some 0%nat else option_map S (find sub buf).
Proof. reflexivity. Qed.

Lemma find_app_some (buf c : bytes) (i : nat) :
  find sub buf = Some i -> find sub (buf ++ c) = Some i.
Proof.
  revert i. induction buf as [|y buf IH]; intros i H.
  - simpl in H. destruct (startswith sub []) eqn:E; [|discriminate].
    injection H as <-. destruct sub; [|discriminate].
    destruct c; reflexivity.
  - rewrite find_cons in H. rewrite <- app_comm_cons, find_cons.
    destruct (startswith sub (y :: buf)) eqn:E.
    + rewrite app_comm_cons, startswith_app_true by assumption. assumption.
    + destruct (find sub buf) as [j|] eqn:F; [|discriminate].
      pose proof (find_bound _ _ F) as B.
      rewrite app_comm_cons, startswith_app, E by (simpl; lia).
      rewrite (IH j eq_refl). assumption.
Qed.

(** An occurrence that appears only when [c] is appended ends inside
    [c]. *)
Lemma find_app_none (buf c : bytes) (j : nat) :
  find sub buf = None -> find sub (buf ++ c) = Some j ->
  (length buf < j + length sub)%nat.
Proof.
  revert j. induction buf as [|y buf IH]; intros j H F.
  - simpl in H. destruct (startswith sub []) eqn:E; [discriminate|].
    destruct sub; [discriminate|]. simpl. lia.
  - rewrite find_cons in H. rewrite <- app_comm_cons, find_cons in F.
    destruct (startswith sub (y :: buf)) eqn:E; [discriminate|].
    destruct (find sub buf) as [k|] eqn:Fb; [discriminate|].
    destruct (startswith sub (y :: buf ++ c)) eqn:E'.
    + injection F as <-.
      destruct (Nat.le_gt_cases (length sub) (length (y :: buf))) as [L|L].
      * rewrite app_comm_cons, startswith_app, E in E' by assumption.
        discriminate.
      * simpl in *. lia.
    + destruct (find sub (buf ++ c)) as [k|] eqn:Fc; [|discriminate].
      injection F as <-. specialize (IH k eq_refl eq_refl). simpl. lia.
Qed.

Lemma find_skipn_some (buf : bytes) (i k : nat) :
  find sub buf = Some i -> (k <= i)%nat ->
  find sub (skipn k buf) = Some (i - k)%nat.
Proof.
  revert i k. induction buf as [|y buf IH]; intros i k H L.
  - pose proof (find_bound _ _ H) as B. simpl in B.
    replace k with 0%nat by lia. replace i with 0%nat in * by lia. assumption.
  - destruct k as [|k]; [now rewrite Nat.sub_0_r|].
    rewrite find_cons in H.
    destruct (startswith sub (y :: buf)); [injection H as <-; lia|].
    destruct (find sub buf) as [j|] eqn:F; [|discriminate].
    injection H as <-. simpl. apply IH; [reflexivity|lia].
Qed.

Lemma find_skipn_none (buf : bytes) (k : nat) :
  (k <= length buf)%nat ->
  find sub buf = None -> find sub (skipn k buf) = None.
Proof.
  revert k. induction buf as [|y buf IH]; intros k L H.
  - now destruct k.
  - destruct k as [|k]; [assumption|].
    rewrite find_cons in H.
    destruct (startswith sub (y :: buf)); [discriminate|].
    destruct (find sub buf) eqn:F; [discriminate|].
    simpl. apply IH; [simpl in L; lia|reflexivity].
Qed.

Lemma find_startswith (buf : bytes) (i : nat) :
  find sub buf = Some i -> startswith sub (skipn i buf) = true.
Proof.
  intros H. pose proof (find_skipn_some buf i i H (le_n i)) as F.
  rewrite Nat.sub_diag in F.
  destruct (skipn i buf) as [|y r]; simpl in F.
  - destruct (startswith sub []); [reflexivity|discriminate].
  - destruct (startswith sub (y :: r)); [reflexivity|].
    destruct (find sub r); discriminate.
Qed.

Lemma find_short (buf : bytes) :
  (length buf < length sub)%nat -> find sub buf = None.
Proof.
  intros L. destruct (find sub buf) as [i|] eqn:F; [|reflexivity].
  apply find_bound in F. lia.
Qed.

Lemma startswith_find (buf : bytes) :
  startswith sub buf = true -> find sub buf = Some 0%nat.
Proof. intros H. destruct buf; simpl; now rewrite H. Qed.

End Find.

(** ** The extraction loop *)

Lemma extract_pass_length (buf : bytes) :
  match extract_pass buf with
  | Return None buf' => (length buf' <= length buf)%nat
  | Return (Some f) buf' =>
      (length buf' + FRAME_LEN <= length buf)%nat /\ valid_frame f = true
  | Continue buf' => (length buf' + FRAME_LEN <= length buf)%nat
  end.
Proof.
  unfold extract_pass.
  destruct (find FRAME_HEADER buf) as [i|] eqn:F.
  - destruct (length buf - i <? FRAME_LEN)%nat eqn:L; [lia|].
    apply Nat.ltb_ge in L.
    destruct (bytes_eqb _ FRAME_TAIL) eqn:T; simpl;
      rewrite length_skipn; [|lia].
    split; [lia|]. unfold valid_frame.
    rewrite T, andb_true_r. apply andb_true_iff. split.
    + apply Nat.eqb_eq. unfold slice. rewrite length_firstn, length_skipn. lia.
    + unfold slice. replace (i + FRAME_LEN - i)%nat with FRAME_LEN by lia.
      apply find_startswith in F.
      rewrite <- (firstn_skipn FRAME_LEN (skipn i buf)) in F.
      rewrite startswith_app in F; [assumption|].
      rewrite length_firstn, length_skipn.
      change (length FRAME_HEADER) with 4%nat. unfold FRAME_LEN in *. lia.
  - destruct (3 <? length buf)%nat; [|lia].
    rewrite last_bytes_length. lia.
Qed.

Lemma extract_pass_continue (buf buf' : bytes) :
  extract_pass buf = Continue buf' -> (length buf' + FRAME_LEN <= length buf)%nat.
Proof. intros H. pose proof (extract_pass_length buf) as L. now rewrite H in L. Qed.

Lemma extract_pass_some (buf f buf' : bytes) :
  extract_pass buf = Return (Some f) buf' ->
  (length buf' + FRAME_LEN <= length buf)%nat /\ valid_frame f = true.
Proof. intros H. pose proof (extract_pass_length buf) as L. now rewrite H in L. Qed.

Lemma extract_pass_nil : extract_pass [] = Return None [].
Proof. reflexivity. Qed.

(** The bound on the number of passes is never reached. *)
Lemma extract_loop_fuel (f1 f2 : nat) (buf : bytes) :
  (length buf <= f1)%nat -> (length buf <= f2)%nat ->
  extract_loop f1 buf = extract_loop f2 buf.
Proof.
  revert f2 buf. induction f1 as [|f1 IH]; intros f2 buf L1 L2.
  - destruct buf; [|simpl in L1; lia]. now destruct f2.
  - destruct f2 as [|f2].
    + destruct buf; [|simpl in L2; lia]. reflexivity.
    + simpl. destruct (extract_pass buf) as [r b|b] eqn:E; [reflexivity|].
      apply extract_pass_continue in E. unfold FRAME_LEN in E.
      apply IH; lia.
Qed.

Lemma extract_unfold (buf : bytes) :
  _extract_frame_from_buffer buf =
  match extract_pass buf with
  | Return r buf' => (r, buf')
  | Continue buf' => _extract_frame_from_buffer buf'
  end.
Proof.
  unfold _extract_frame_from_buffer.
  destruct buf as [|y buf]; [reflexivity|].
  change (length (y :: buf)) with (S (length buf)). simpl extract_loop.
  destruct (extract_pass (y :: buf)) as [r b|b] eqn:E; [reflexivity|].
  apply extract_pass_continue in E. unfold FRAME_LEN in E. simpl in E.
  apply extract_loop_fuel; lia.
Qed.

Lemma scan_fuel (f1 f2 : nat) (buf : bytes) :
  (length buf <= f1)%nat -> (length buf <= f2)%nat -> scan f1 buf = scan f2 buf.
Proof.
  revert f2 buf. induction f1 as [|f1 IH]; intros f2 buf L1 L2.
  - destruct buf; [|simpl in L1; lia]. now destruct f2.
  - destruct f2 as [|f2].
    + destruct buf; [|simpl in L2; lia]. reflexivity.
    + simpl. destruct (extract_pass buf) as [[f|] b|b] eqn:E; [|reflexivity|].
      * apply extract_pass_some in E as [E _]. unfold FRAME_LEN in E.
        rewrite (IH f2 b) by lia. reflexivity.
      * apply extract_pass_continue in E. unfold FRAME_LEN in E.
        apply IH; lia.
Qed.

Lemma scan_unfold (buf : bytes) :
  scan_all buf =
  match extract_pass buf with
  | Return None buf' => ([], buf')
  | Return (Some f) buf' => let '(fs, buf'') := scan_all buf' in (f :: fs, buf'')
  | Continue buf' => scan_all buf'
  end.
Proof.
  unfold scan_all.
  destruct buf as [|y buf]; [reflexivity|].
  change (length (y :: buf)) with (S (length buf)). simpl scan.
  destruct (extract_pass (y :: buf)) as [[f|] b|b] eqn:E; [|reflexivity|].
  - apply extract_pass_some in E as [E _]. unfold FRAME_LEN in E. simpl in E.
    rewrite (scan_fuel (length buf) (length b) b) by lia. reflexivity.
  - apply extract_pass_continue in E. unfold FRAME_LEN in E. simpl in E.
    apply scan_fuel; lia.
Qed.

(** [scan_all] is the iteration of [_extract_frame_from_buffer]. *)
Lemma scan_extract (buf : bytes) :
  scan_all buf =
  match _extract_frame_from_buffer buf with
  | (None, buf') => ([], buf')
  | (Some f, buf') => let '(fs, buf'') := scan_all buf' in (f :: fs, buf'')
  end.
Proof.
  remember (length buf) as n eqn:Hn.
  revert buf Hn. induction n as [n IH] using lt_wf_ind. intros buf ->.
  rewrite scan_unfold, extract_unfold.
  destruct (extract_pass buf) as [[f|] b|b] eqn:E; try reflexivity.
  apply extract_pass_continue in E. unfold FRAME_LEN in E.
  apply (IH (length b)); [lia|reflexivity].
Qed.

Lemma skipn_app_le (k : nat) (a c : bytes) :
  (k <= length a)%nat -> skipn k (a ++ c) = skipn k a ++ c.
Proof.
  intros L. rewrite skipn_app.
  replace (k - length a)%nat with 0%nat by lia. reflexivity.
Qed.

Lemma firstn_app_le (k : nat) (a c : bytes) :
  (k <= length a)%nat -> firstn k (a ++ c) = firstn k a.
Proof.
  intros L. rewrite firstn_app.
  replace (k - length a)%nat with 0%nat by lia. simpl. apply app_nil_r.
Qed.

(** What a pass that removes a window did. *)
Lemma extract_pass_window (buf : bytes) :
  match extract_pass buf with
  | Return None _ => True
  | Return (Some _) buf' | Continue buf' =>
      exists i, find FRAME_HEADER buf = Some i /\
                (i + FRAME_LEN <= length buf)%nat /\
                buf' = skipn (i + FRAME_LEN) buf
  end.
Proof.
  unfold extract_pass.
  destruct (find FRAME_HEADER buf) as [i|] eqn:F; [|exact I].
  destruct (length buf - i <? FRAME_LEN)%nat eqn:L; [exact I|].
  apply Nat.ltb_ge in L. pose proof (find_bound _ _ _ F) as B.
  destruct (bytes_eqb _ FRAME_TAIL); simpl; exists i; repeat split; lia.
Qed.

(** What a pass that returns [None] leaves. *)
Lemma extract_pass_none (buf buf' : bytes) :
  extract_pass buf = Return None buf' ->
  match find FRAME_HEADER buf with
  | Some i => (length buf - i < FRAME_LEN)%nat /\ buf' = buf
  | None => buf' = norm buf /\ (length buf' <= 3)%nat
  end.
Proof.
  unfold extract_pass, norm.
  destruct (find FRAME_HEADER buf) as [i|] eqn:F.
  - destruct (length buf - i <? FRAME_LEN)%nat eqn:L.
    + apply Nat.ltb_lt in L. intros H. injection H as <-. now split.
    + destruct (bytes_eqb _ FRAME_TAIL); discriminate.
  - intros H. injection H as <-.
    destruct (3 <? length buf)%nat eqn:L.
    + split; [reflexivity|]. rewrite last_bytes_length. lia.
    + apply Nat.ltb_ge in L. rewrite last_bytes_short by assumption. now split.
Qed.

Lemma stable_inv (buf : bytes) :
  stable buf ->
  match find FRAME_HEADER buf with
  | Some i => (length buf - i < FRAME_LEN)%nat
  | None => (length buf <= 3)%nat
  end.
Proof.
  intros H. apply extract_pass_none in H.
  destruct (find FRAME_HEADER buf); [tauto|]. destruct H as [_ H]. exact H.
Qed.

Lemma stable_short (buf : bytes) : (length buf <= 3)%nat -> stable buf.
Proof.
  intros L. unfold stable, extract_pass.
  rewrite find_short by (simpl; lia).
  replace (3 <? length buf)%nat with false; [reflexivity|].
  symmetry. apply Nat.ltb_ge. assumption.
Qed.

(** After a pass that returns [None] the buffer is stable. *)
Lemma extract_pass_none_stable (buf buf' : bytes) :
  extract_pass buf = Return None buf' -> stable buf'.
Proof.
  intros H. pose proof (extract_pass_none _ _ H) as K.
  destruct (find FRAME_HEADER buf).
  - destruct K as [_ ->]. exact H.
  - destruct K as [_ K]. now apply stable_short.
Qed.

(** A window found in [u] is found, and judged, the same way in
    [u ++ c]. *)
Lemma extract_pass_app (u c : bytes) :
  match extract_pass u with
  | Return None _ => True
  | Return (Some f) r => extract_pass (u ++ c) = Return (Some f) (r ++ c)
  | Continue r => extract_pass (u ++ c) = Continue (r ++ c)
  end.
Proof.
  unfold extract_pass.
  destruct (find FRAME_HEADER u) as [i|] eqn:F; [|exact I].
  rewrite (find_app_some _ _ c _ F).
  destruct (length u - i <? FRAME_LEN)%nat eqn:L; [exact I|].
  apply Nat.ltb_ge in L. pose proof (find_bound _ _ _ F) as B.
  replace (length (u ++ c) - i <? FRAME_LEN)%nat with false
    by (symmetry; apply Nat.ltb_ge; rewrite length_app; lia).
  assert (S1 : slice i (i + FRAME_LEN) (u ++ c) = slice i (i + FRAME_LEN) u).
  { unfold slice. rewrite skipn_app_le by lia.
    apply firstn_app_le. rewrite length_skipn. lia. }
  rewrite S1, skipn_app_le by lia.
  destruct (bytes_eqb _ FRAME_TAIL); reflexivity.
Qed.

(** Dropping bytes that precede every header, and leaving three bytes
    when there is no header, does not change what a pass finds. *)
Lemma extract_pass_skipn (b : bytes) (k : nat) :
  match find FRAME_HEADER b with
  | Some i => (k <= i)%nat
  | None => (k + 3 <= length b)%nat \/ k = 0%nat
  end ->
  match extract_pass b, extract_pass (skipn k b) with
  | Return None _, Return None _ => True
  | Return (Some f1) r1, Return (Some f2) r2 => f1 = f2 /\ r1 = r2
  | Continue r1, Continue r2 => r1 = r2
  | _, _ => False
  end.
Proof.
  unfold extract_pass.
  destruct (find FRAME_HEADER b) as [i|] eqn:F; intros Hk.
  - rewrite (find_skipn_some _ b i k F Hk).
    pose proof (find_bound _ _ _ F) as B.
    rewrite length_skipn.
    replace (length b - k - (i - k))%nat with (length b - i)%nat by lia.
    destruct (length b - i <? FRAME_LEN)%nat; [exact I|].
    unfold slice. rewrite !skipn_skipn.
    replace (i - k + FRAME_LEN - (i - k))%nat with (i + FRAME_LEN - i)%nat by lia.
    replace (i - k + k)%nat with i by lia.
    replace (i - k + FRAME_LEN + k)%nat with (i + FRAME_LEN)%nat by lia.
    destruct (bytes_eqb _ FRAME_TAIL); simpl; auto.
  - rewrite find_skipn_none; [exact I| |assumption].
    destruct Hk; lia.
Qed.

Lemma extract_pass_norm (b c : bytes) :
  match extract_pass (b ++ c), extract_pass (norm b ++ c) with
  | Return None _, Return None _ => True
  | Return (Some f1) r1, Return (Some f2) r2 => f1 = f2 /\ r1 = r2
  | Continue r1, Continue r2 => r1 = r2
  | _, _ => False
  end.
Proof.
  assert (K : exists k,
    norm b ++ c = skipn k (b ++ c) /\
    match find FRAME_HEADER (b ++ c) with
    | Some i => (k <= i)%nat
    | None => (k + 3 <= length (b ++ c))%nat \/ k = 0%nat
    end).
  { unfold norm. destruct (find FRAME_HEADER b) as [i|] eqn:F.
    - exists i. pose proof (find_bound _ _ _ F) as B. split.
      + rewrite skipn_app_le by lia. reflexivity.
      + rewrite (find_app_some _ _ c _ F). lia.
    - exists (length b - 3)%nat. split.
      + unfold last_bytes. rewrite skipn_app_le by lia. reflexivity.
      + destruct (find FRAME_HEADER (b ++ c)) as [j|] eqn:Fc.
        * pose proof (find_app_none _ _ _ _ F Fc) as B. simpl in B. lia.
        * rewrite length_app. lia. }
  destruct K as [k [-> Hk]]. now apply extract_pass_skipn.
Qed.

Lemma scan_norm (b c : bytes) :
  fst (scan_all (b ++ c)) = fst (scan_all (norm b ++ c)).
Proof.
  rewrite (scan_unfold (b ++ c)), (scan_unfold (norm b ++ c)).
  pose proof (extract_pass_norm b c) as H.
  destruct (extract_pass (b ++ c)) as [[f1|] r1|r1];
    destruct (extract_pass (norm b ++ c)) as [[f2|] r2|r2];
    try contradiction; try reflexivity.
  - destruct H as [-> ->]. reflexivity.
  - subst. reflexivity.
Qed.

(** What one call returns and leaves. *)
Lemma extract_result (buf : bytes) :
  let '(o, r) := _extract_frame_from_buffer buf in
  (length r <= length buf)%nat /\
  match o with
  | Some f => (length r + FRAME_LEN <= length buf)%nat /\ valid_frame f = true
  | None => stable r
  end.
Proof.
  remember (length buf) as n eqn:Hn.
  revert buf Hn. induction n as [n IH] using lt_wf_ind. intros buf ->.
  rewrite extract_unfold.
  pose proof (extract_pass_length buf) as L.
  destruct (extract_pass buf) as [[f|] b|b] eqn:E.
  - destruct L as [L V]. repeat split; [lia|lia|assumption].
  - split; [assumption|]. now apply extract_pass_none_stable in E.
  - unfold FRAME_LEN in L.
    specialize (IH (length b) ltac:(lia) b eq_refl).
    destruct (_extract_frame_from_buffer b) as [o r].
    destruct IH as [IH1 IH2]. split; [lia|].
    destruct o; [|assumption]. destruct IH2. split; [lia|assumption].
Qed.

Lemma extract_stable (buf : bytes) :
  stable buf -> _extract_frame_from_buffer buf = (None, buf).
Proof. intros H. rewrite extract_unfold. unfold stable in H. now rewrite H. Qed.

Lemma scan_stable (buf : bytes) : stable buf -> scan_all buf = ([], buf).
Proof. intros H. rewrite scan_unfold. unfold stable in H. now rewrite H. Qed.

(** The frames of [u ++ c] are the frame one call returns on [u],
    followed by the frames of what that call leaves, with [c] appended. *)
Lemma scan_app_extract (u c : bytes) :
  fst (scan_all (u ++ c)) =
  frames_of_result (fst (_extract_frame_from_buffer u)) ++
  fst (scan_all (snd (_extract_frame_from_buffer u) ++ c)).
Proof.
  remember (length u) as n eqn:Hn.
  revert u Hn. induction n as [n IH] using lt_wf_ind. intros u ->.
  rewrite extract_unfold.
  pose proof (extract_pass_app u c) as A.
  destruct (extract_pass u) as [[f|] r|r] eqn:E; simpl.
  - rewrite scan_unfold, A. destruct (scan_all (r ++ c)). reflexivity.
  - apply extract_pass_none in E.
    destruct (find FRAME_HEADER u).
    + destruct E as [_ ->]. reflexivity.
    + destruct E as [-> _]. apply scan_norm.
  - rewrite scan_unfold, A.
    apply extract_pass_continue in E. unfold FRAME_LEN in E.
    apply (IH (length r)); [lia|reflexivity].
Qed.

(** One more byte on a stable buffer: whatever the call returns, it
    leaves a stable buffer. *)
Lemma extract_byte_stable (b : bytes) (x : byte) :
  stable b -> stable (snd (_extract_frame_from_buffer (b ++ [x]))).
Proof.
  intros Hs. rewrite extract_unfold.
  pose proof (extract_pass_window (b ++ [x])) as W.
  assert (K : forall i, find FRAME_HEADER (b ++ [x]) = Some i ->
                        (i + FRAME_LEN <= length (b ++ [x]))%nat ->
                        skipn (i + FRAME_LEN) (b ++ [x]) = []).
  { intros i F L. apply skipn_all2.
    apply stable_inv in Hs. rewrite length_app in *. simpl in *.
    destruct (find FRAME_HEADER b) as [j|] eqn:Fb.
    - rewrite (find_app_some _ _ [x] _ Fb) in F. injection F as <-. lia.
    - unfold FRAME_LEN in *. lia. }
  destruct (extract_pass (b ++ [x])) as [[f|] r|r] eqn:E; simpl.
  - destruct W as [i [F [L ->]]]. rewrite (K i F L). exact extract_pass_nil.
  - now apply extract_pass_none_stable in E.
  - destruct W as [i [F [L ->]]]. rewrite (K i F L). exact extract_pass_nil.
Qed.

(** Reading byte by byte from a stable buffer returns the frames of the
    buffer with the stream appended. *)
Lemma bytewise_scan (s b : bytes) :
  stable b -> fst (read_frames b (bytewise s)) = fst (scan_all (b ++ s)).
Proof.
  revert b. induction s as [|x s IH]; intros b Hs.
  - simpl. rewrite app_nil_r, scan_stable by assumption. reflexivity.
  - replace (b ++ x :: s) with ((b ++ [x]) ++ s) by (now rewrite <- app_assoc).
    rewrite scan_app_extract.
    pose proof (extract_byte_stable b x Hs) as Hr.
    simpl. unfold read_frame.
    destruct (_extract_frame_from_buffer (b ++ [x])) as [o r]. simpl in *.
    specialize (IH r Hr).
    destruct (read_frames r (bytewise s)) as [fs r']. simpl in *.
    rewrite <- IH. now destruct o.
Qed.

Lemma read_frames_stable (k : nat) (b : bytes) :
  stable b -> read_frames b (repeat [] k) = ([], b).
Proof.
  intros Hs. induction k as [|k IH]; [reflexivity|].
  simpl. unfold read_frame. rewrite app_nil_r, extract_stable by assumption.
  rewrite IH. reflexivity.
Qed.

(** Enough empty reads return every frame the buffer holds. *)
Lemma read_frames_drain (k : nat) (b : bytes) :
  (length b <= k)%nat -> read_frames b (repeat [] k) = scan_all b.
Proof.
  revert b. induction k as [|k IH]; intros b L.
  - destruct b; [reflexivity|simpl in L; lia].
  - simpl. unfold read_frame. rewrite app_nil_r, scan_extract.
    pose proof (extract_result b) as R.
    destruct (_extract_frame_from_buffer b) as [[f|] r].
    + destruct R as [_ [R _]]. unfold FRAME_LEN in R.
      rewrite IH by lia. reflexivity.
    + destruct R as [_ R]. rewrite read_frames_stable by assumption. reflexivity.
Qed.

Lemma read_frames_at_once (k : nat) (s : bytes) :
  (length s <= S k)%nat -> read_frames [] (s :: repeat [] k) = scan_all s.
Proof.
  intros L. rewrite <- (read_frames_drain (S k) s L).
  simpl. unfold read_frame. rewrite app_nil_r. reflexivity.
Qed.

(** ** Windows at the front of the buffer *)

Lemma extract_pass_front (w rest : bytes) :
  length w = FRAME_LEN -> startswith FRAME_HEADER w = true ->
  extract_pass (w ++ rest) =
  if bytes_eqb (last_bytes 2 w) FRAME_TAIL then Return (Some w) rest
  else Continue rest.
Proof.
  intros L H. unfold extract_pass.
  rewrite (startswith_find _ _ (startswith_app_true _ _ rest H)).
  rewrite length_app, Nat.sub_0_r.
  replace (length w + length rest <? FRAME_LEN)%nat with false
    by (symmetry; apply Nat.ltb_ge; lia).
  unfold slice. change (skipn 0 (w ++ rest)) with (w ++ rest).
  replace (0 + FRAME_LEN - 0)%nat with (length w) by lia.
  rewrite firstn_app_le, firstn_all by lia.
  replace (0 + FRAME_LEN)%nat with (length w) by lia.
  rewrite skipn_app_le, skipn_all by lia.
  change ([] ++ rest) with rest.
  now destruct (bytes_eqb (last_bytes 2 w) FRAME_TAIL).
Qed.





(** ** The frame synchronizer: chunking, resynchronisation, buffer size *)

(** C3, as stated, fails: [read_frame] returns at most one frame per
    call.  Two frames received in one 60-byte read give one frame from
    that call, and two frames when the same bytes arrive one at a time. *)
Lemma chunking_single_call_counterexample :
  fst (read_frames [] (bytewise (frame_a ++ frame_b))) = [frame_a; frame_b] /\
  fst (read_frames [] [frame_a ++ frame_b]) = [frame_a] /\
  fst (read_frames [] (bytewise (frame_a ++ frame_b)))
  <> fst (read_frames [] [frame_a ++ frame_b]).
Proof.
  assert (A : fst (read_frames [] (bytewise (frame_a ++ frame_b)))
              = [frame_a; frame_b]) by (vm_compute; reflexivity).
  assert (B : fst (read_frames [] [frame_a ++ frame_b]) = [frame_a])
    by (vm_compute; reflexivity).
  split; [exact A|]. split; [exact B|]. rewrite A, B. discriminate.
Qed.

(** C3, amended: for every byte stream, the frames returned when the
    stream is read one byte per call are, in the same order, the frames
    returned when the whole stream is read in one call and [read_frame] is
    then called again on empty reads ([length stream] calls are enough for
    it to have returned [None]). *)
Theorem chunking_invariance (stream : bytes) :
  fst (read_frames [] (bytewise stream)) =
  fst (read_frames [] (stream :: repeat [] (length stream))).
Proof.
  rewrite read_frames_at_once by lia.
  apply (bytewise_scan stream []). exact extract_pass_nil.
Qed.

(** C8: a header followed by 26 bytes that do not end in the tail
    marker, followed by a complete valid frame: the call removes the
    corrupt 30-byte window without any error and returns the second
    frame, leaving an empty buffer; that frame is the only one the stream
    yields, also when it is read byte by byte. *)
Theorem corrupt_frame_resync (garbage payload : bytes) :
  length garbage = 26%nat ->
  last_bytes 2 garbage <> FRAME_TAIL ->
  length payload = 24%nat ->
  let frame2 := FRAME_HEADER ++ payload ++ FRAME_TAIL in
  let stream := FRAME_HEADER ++ garbage ++ frame2 in
  extract_pass stream = Continue frame2 /\
  read_frame [] stream = (Some frame2, []) /\
  scan_all stream = ([frame2], []) /\
  fst (read_frames [] (bytewise stream)) = [frame2].
Proof.
  intros Lg Tg Lp frame2 stream.
  assert (P1 : extract_pass stream = Continue frame2).
  { unfold stream. rewrite app_assoc, extract_pass_front.
    - rewrite last_bytes_app by lia.
      apply bytes_eqb_neq in Tg. now rewrite Tg.
    - rewrite length_app, Lg. reflexivity.
    - apply startswith_app_true. reflexivity. }
  assert (P2 : extract_pass frame2 = Return (Some frame2) []).
  { rewrite <- (app_nil_r frame2) at 1. rewrite extract_pass_front.
    - unfold frame2. rewrite app_assoc, last_bytes_app by (simpl; lia).
      reflexivity.
    - unfold frame2. rewrite !length_app, Lp. reflexivity.
    - apply startswith_app_true. reflexivity. }
  assert (S : scan_all stream = ([frame2], [])).
  { rewrite scan_unfold, P1, scan_unfold, P2. reflexivity. }
  repeat split.
  - exact P1.
  - unfold read_frame. simpl app. fold stream.
    rewrite extract_unfold, P1, extract_unfold, P2. reflexivity.
  - exact S.
  - rewrite (bytewise_scan stream []) by exact extract_pass_nil.
    simpl app. now rewrite S.
Qed.

Lemma corrupt_frame_resync_witness :
  let garbage := repeat x11 26 in
  let payload := repeat x22 24 in
  let frame2 := FRAME_HEADER ++ payload ++ FRAME_TAIL in
  let stream := FRAME_HEADER ++ garbage ++ frame2 in
  extract_pass stream = Continue frame2 /\
  read_frame [] stream = (Some frame2, []) /\
  scan_all stream = ([frame2], []) /\
  fst (read_frames [] (bytewise stream)) = [frame2].
Proof.
  apply (corrupt_frame_resync (repeat x11 26) (repeat x22 24)).
  - reflexivity.
  - vm_compute. discriminate.
  - reflexivity.
Defined.



(** ** The target decoder *)

Lemma land_bit15 (u : Z) :
  Z.land u 0x8000 = if Z.testbit u 15 then 0x8000 else 0.
Proof.
  change 0x8000 with (2 ^ 15). apply Z.bits_inj'. intros n Hn.
  rewrite Z.land_spec, Z.pow2_bits_eqb by lia.
  destruct (Z.eqb_spec 15 n) as [<-|Hne].
  - rewrite andb_true_r. destruct (Z.testbit u 15) eqn:E.
    + rewrite Z.pow2_bits_true; [reflexivity|lia].
    + now rewrite Z.bits_0.
  - rewrite andb_false_r. destruct (Z.testbit u 15).
    + rewrite Z.pow2_bits_false; [reflexivity|assumption].
    + now rewrite Z.bits_0.
Qed.

Lemma decode_signed_mag_eq (u : Z) : _decode_signed_mag u = signed_mag u.
Proof.
  unfold _decode_signed_mag, signed_mag. rewrite land_bit15.
  destruct (u =? 0); [reflexivity|]. now destruct (Z.testbit u 15).
Qed.

(** On a 16-bit value: the magnitude is the value without its top bit,
    taken positive when the top bit is set. *)
Lemma signed_mag_arith (u : Z) :
  0 <= u < 65536 -> signed_mag u = if u <? 32768 then - u else u - 32768.
Proof.
  intros Hu. unfold signed_mag.
  change 0x7FFF with (Z.ones 15). rewrite Z.land_ones by lia.
  assert (T : Z.testbit u 15 = negb (u <? 32768)).
  { rewrite Z.testbit_eqb by lia. change (2 ^ 15) with 32768.
    destruct (Z.ltb_spec u 32768) as [L|L]; simpl.
    - rewrite Z.div_small by lia. reflexivity.
    - replace (u / 32768) with 1; [reflexivity|].
      apply Z.div_unique with (r := u - 32768); lia. }
  rewrite T. change (2 ^ 15) with 32768.
  destruct (Z.eqb_spec u 0) as [->|Hne]; [reflexivity|].
  destruct (Z.ltb_spec u 32768) as [L|L]; simpl.
  - rewrite Z.mod_small by lia. reflexivity.
  - symmetry. apply Z.mod_unique with (q := 1); lia.
Qed.

Lemma signed_mag_bound (u : Z) :
  0 <= u < 65536 -> -32767 <= signed_mag u <= 32767.
Proof.
  intros Hu. rewrite signed_mag_arith by assumption.
  destruct (Z.ltb_spec u 32768); lia.
Qed.

Lemma unpack_H_bound (b0 b1 : byte) : 0 <= unpack_H b0 b1 < 65536.
Proof.
  unfold unpack_H.
  pose proof (Byte.to_N_bounded b0). pose proof (Byte.to_N_bounded b1). lia.
Qed.

Lemma field_bound (frame : bytes) (idx k : nat) : 0 <= field frame idx k < 65536.
Proof. apply unpack_H_bound. Qed.

Lemma parse_slot_spec (frame : bytes) (idx : nat) :
  length frame = FRAME_LEN -> (idx < TARGETS_PER_FRAME)%nat ->
  parse_slot frame idx =
  if bytes_eqb (slot_bytes frame idx) zero_segment then Some None
  else
    let x := signed_mag (field frame idx 0) in
    let y := signed_mag (field frame idx 1) in
    Some (Some (mkTarget (Z.of_nat idx + 1) x y (int_hypot x y)
                         (signed_mag (field frame idx 2)) (field frame idx 3))).
Proof.
  intros L Hi. unfold FRAME_LEN in L.
  do 30 (destruct frame as [|? frame]; [discriminate|]).
  destruct frame; [|discriminate].
  unfold TARGETS_PER_FRAME in Hi.
  assert (C : idx = 0%nat \/ idx = 1%nat \/ idx = 2%nat) by lia.
  unfold parse_slot, slot_bytes, field, slice.
  destruct C as [->|[->| ->]];
    cbn [skipn firstn Nat.add Nat.mul Nat.sub nth unpack_HHHH];
    rewrite !decode_signed_mag_eq; reflexivity.
Qed.

Lemma parse_targets_slots (frame : bytes) :
  length frame = FRAME_LEN ->
  parse_targets frame =
  Some (slot_targets frame 0 ++ slot_targets frame 1 ++ slot_targets frame 2).
Proof.
  intros L. unfold parse_targets. rewrite L, Nat.eqb_refl. simpl negb. cbv iota.
  change (seq 0 TARGETS_PER_FRAME) with [0; 1; 2]%nat.
  unfold slot_targets. simpl parse_slots.
  rewrite !parse_slot_spec by (assumption || (unfold TARGETS_PER_FRAME; lia)).
  destruct (bytes_eqb (slot_bytes frame 0) zero_segment);
    destruct (bytes_eqb (slot_bytes frame 1) zero_segment);
    destruct (bytes_eqb (slot_bytes frame 2) zero_segment); reflexivity.
Qed.

Lemma parse_targets_length (frame : bytes) :
  length frame <> FRAME_LEN -> parse_targets frame = None.
Proof.
  intros L. unfold parse_targets.
  apply Nat.eqb_neq in L. now rewrite L.
Qed.

(** Every decoded target comes from a non-zero slot and carries its
    decoded fields. *)
Lemma parse_targets_in (frame : bytes) (targets : list Target) (t : Target) :
  parse_targets frame = Some targets -> In t targets ->
  exists idx : nat,
    (idx < TARGETS_PER_FRAME)%nat /\
    slot_bytes frame idx <> zero_segment /\
    t = mkTarget (Z.of_nat idx + 1)
                 (signed_mag (field frame idx 0))
                 (signed_mag (field frame idx 1))
                 (int_hypot (signed_mag (field frame idx 0))
                            (signed_mag (field frame idx 1)))
                 (signed_mag (field frame idx 2))
                 (field frame idx 3).
Proof.
  intros P Hin.
  destruct (Nat.eq_dec (length frame) FRAME_LEN) as [L|L];
    [|rewrite parse_targets_length in P by assumption; discriminate].
  rewrite parse_targets_slots in P by assumption. injection P as <-.
  assert (K : forall idx, (idx < TARGETS_PER_FRAME)%nat ->
                          In t (slot_targets frame idx) ->
                          exists idx : nat,
    (idx < TARGETS_PER_FRAME)%nat /\
    slot_bytes frame idx <> zero_segment /\
    t = mkTarget (Z.of_nat idx + 1)
                 (signed_mag (field frame idx 0))
                 (signed_mag (field frame idx 1))
                 (int_hypot (signed_mag (field frame idx 0))
                            (signed_mag (field frame idx 1)))
                 (signed_mag (field frame idx 2))
                 (field frame idx 3)).
  { intros idx Hi Ht. exists idx. unfold slot_targets in Ht.
    rewrite parse_slot_spec in Ht by assumption.
    destruct (bytes_eqb (slot_bytes frame idx) zero_segment) eqn:E;
      [contradiction|].
    apply bytes_eqb_neq in E. destruct Ht as [<-|[]]. now repeat split. }
  unfold TARGETS_PER_FRAME in K.
  rewrite !in_app_iff in Hin. destruct Hin as [H|[H|H]];
    [apply (K 0%nat)|apply (K 1%nat)|apply (K 2%nat)]; (lia || assumption).
Qed.

(** The ranges of the fields of a decoded target. *)
Lemma parse_targets_bounds (frame : bytes) (targets : list Target) (t : Target) :
  parse_targets frame = Some targets -> In t targets ->
  1 <= target_id t <= 3 /\
  -32767 <= x_mm t <= 32767 /\ -32767 <= y_mm t <= 32767 /\
  0 <= r_mm t <= 46340 /\
  -32767 <= speed_cm_s t <= 32767 /\ 0 <= dist_gate_mm t <= 65535.
Proof.
  intros P Hin. destruct (parse_targets_in _ _ _ P Hin) as [idx [Hi [_ ->]]].
  unfold TARGETS_PER_FRAME in Hi. simpl.
  pose proof (signed_mag_bound _ (field_bound frame idx 0)) as Bx.
  pose proof (signed_mag_bound _ (field_bound frame idx 1)) as By.
  pose proof (signed_mag_bound _ (field_bound frame idx 2)) as Bv.
  pose proof (field_bound frame idx 3) as Bd.
  repeat split; try lia.
  - apply Z.sqrt_nonneg.
  - unfold int_hypot.
    set (x := signed_mag (field frame idx 0)) in *.
    set (y := signed_mag (field frame idx 1)) in *.
    assert (x * x + y * y < 46341 * 46341) by nia.
    assert (Z.sqrt (x * x + y * y) < 46341); [|lia].
    apply Z.sqrt_lt_square; [nia|lia|exact H].
Qed.

(** [round_hypot] is the integer nearest to the square root: the distance
    is at most one half. *)
Lemma round_hypot_nearest (x y : Z) :
  let n := x * x + y * y in
  let r := round_hypot x y in
  0 <= r /\ 4 * n < (2 * r + 1) * (2 * r + 1) /\
  (r = 0 \/ (2 * r - 1) * (2 * r - 1) <= 4 * n).
Proof.
  intros n r. unfold r, round_hypot. fold n.
  assert (Hn : 0 <= 4 * n) by (unfold n; nia).
  pose proof (Z.sqrt_spec (4 * n) Hn) as S. cbv zeta in S. unfold Z.succ in S.
  pose proof (Z.sqrt_nonneg (4 * n)) as Hs.
  remember (Z.sqrt (4 * n)) as s eqn:Es.
  remember ((s + 1) / 2) as q eqn:Eq.
  assert (Hq : 2 * q - 1 <= s <= 2 * q)
    by (subst q; Z.div_mod_to_equations; lia).
  split; [lia|]. split.
  - assert ((s + 1) * (s + 1) <= (2 * q + 1) * (2 * q + 1)) by nia. lia.
  - destruct (Z.eq_dec q 0) as [Z0|Z0]; [now left|right].
    assert ((2 * q - 1) * (2 * q - 1) <= s * s) by nia. lia.
Qed.

Lemma int_hypot_spec (x y : Z) :
  let r := int_hypot x y in
  0 <= r /\ r * r <= x * x + y * y < (r + 1) * (r + 1).
Proof.
  intros r. unfold r, int_hypot.
  assert (Hn : 0 <= x * x + y * y) by nia.
  pose proof (Z.sqrt_spec _ Hn) as S. cbv zeta in S.
  split; [apply Z.sqrt_nonneg|]. unfold Z.succ in S. exact S.
Qed.

Lemma round_hypot_int_hypot (x y : Z) :
  round_hypot x y = int_hypot x y \/ round_hypot x y = int_hypot x y + 1.
Proof.
  pose proof (int_hypot_spec x y) as [H0 H]. unfold round_hypot.
  remember (int_hypot x y) as r eqn:Er.
  remember (x * x + y * y) as n eqn:En.
  assert (Hn : 0 <= 4 * n) by nia.
  pose proof (Z.sqrt_spec (4 * n) Hn) as S. cbv zeta in S. unfold Z.succ in S.
  pose proof (Z.sqrt_nonneg (4 * n)) as Hs.
  remember (Z.sqrt (4 * n)) as s eqn:Es.
  assert (2 * r <= s <= 2 * r + 1) by nia.
  Z.div_mod_to_equations. lia.
Qed.

(** C4: the signed-magnitude decoding is 0 on 0, the low 15 bits taken
    positive when bit 15 is set and negative otherwise (0x8064 gives +100,
    0x0064 gives -100); every non-zero slot of a 30-byte frame yields a
    target whose x, y and speed are the decoded 16-bit fields and whose
    distance gate is the plain unsigned field, and [parse_targets] returns
    the targets of the three slots in slot order. *)
Theorem signed_magnitude_decoding (u : Z) (frame : bytes) (idx : nat) :
  length frame = FRAME_LEN -> (idx < TARGETS_PER_FRAME)%nat ->
  _decode_signed_mag u =
    (if u =? 0 then 0
     else if Z.testbit u 15 then Z.land u 0x7FFF else - Z.land u 0x7FFF) /\
  _decode_signed_mag 0 = 0 /\
  _decode_signed_mag 0x8064 = 100 /\
  _decode_signed_mag 0x0064 = -100 /\
  parse_slot frame idx =
    (if bytes_eqb (slot_bytes frame idx) zero_segment then Some None
     else
       let x := _decode_signed_mag (field frame idx 0) in
       let y := _decode_signed_mag (field frame idx 1) in
       Some (Some (mkTarget (Z.of_nat idx + 1) x y (int_hypot x y)
                            (_decode_signed_mag (field frame idx 2))
                            (field frame idx 3)))) /\
  parse_targets frame =
    Some (slot_targets frame 0 ++ slot_targets frame 1 ++ slot_targets frame 2).
Proof.
  intros L Hi. split; [apply decode_signed_mag_eq|].
  do 3 (split; [reflexivity|]). split.
  - rewrite !decode_signed_mag_eq. now apply parse_slot_spec.
  - now apply parse_targets_slots.
Qed.

Lemma signed_magnitude_decoding_witness :
  _decode_signed_mag 0x8064 = 100 /\
  parse_slot frame_a 0 = Some (Some (mkTarget 1 (-100) 1000 1004 50 360)) /\
  parse_targets frame_a = Some [mkTarget 1 (-100) 1000 1004 50 360].
Proof.
  pose proof (signed_magnitude_decoding 0x8064 frame_a 0 eq_refl
                ltac:(unfold TARGETS_PER_FRAME; lia)) as H.
  destruct H as [_ [_ [H1 [_ [H2 H3]]]]].
  split; [exact H1|]. split.
  - rewrite H2. vm_compute. reflexivity.
  - rewrite H3. vm_compute. reflexivity.
Defined.

(** C2, as stated, fails: the range is [int(math.hypot(x, y))], which
    drops the fractional part instead of rounding.  For x = y = 2 the norm
    is 2.83: the decoder stores 2, the nearest integer is 3. *)
Lemma range_round_counterexample :
  parse_targets frame_b =
    Some [mkTarget 1 2 2 2 0 0; mkTarget 2 3000 4000 5000 0 0] /\
  round_hypot 2 2 = 3 /\
  exists targets t,
    parse_targets frame_b = Some targets /\ In t targets /\
    r_mm t <> round_hypot (x_mm t) (y_mm t).
Proof.
  assert (P : parse_targets frame_b =
              Some [mkTarget 1 2 2 2 0 0; mkTarget 2 3000 4000 5000 0 0])
    by (vm_compute; reflexivity).
  split; [exact P|]. split; [reflexivity|].
  exists [mkTarget 1 2 2 2 0 0; mkTarget 2 3000 4000 5000 0 0],
         (mkTarget 1 2 2 2 0 0).
  split; [exact P|]. split; [now left|]. vm_compute. discriminate.
Qed.

(** C2, amended: for every decoded target, [range_mm] is the integer part
    of the Euclidean norm of (x_mm, y_mm): the largest integer whose
    square is at most x_mm² + y_mm².  It is non-negative, it is the
    nearest integer or one below it, and x_mm = 3000, y_mm = 4000 gives
    5000. *)
Theorem range_is_integer_part_of_norm
    (frame : bytes) (targets : list Target) (t : Target) :
  parse_targets frame = Some targets -> In t targets ->
  r_mm t = Z.sqrt (x_mm t * x_mm t + y_mm t * y_mm t) /\
  0 <= r_mm t /\
  r_mm t * r_mm t <= x_mm t * x_mm t + y_mm t * y_mm t
    < (r_mm t + 1) * (r_mm t + 1) /\
  (round_hypot (x_mm t) (y_mm t) = r_mm t \/
   round_hypot (x_mm t) (y_mm t) = r_mm t + 1) /\
  int_hypot 3000 4000 = 5000.
Proof.
  intros P Hin. destruct (parse_targets_in _ _ _ P Hin) as [idx [_ [_ ->]]].
  cbn [r_mm x_mm y_mm].
  set (x := signed_mag (field frame idx 0)).
  set (y := signed_mag (field frame idx 1)).
  pose proof (int_hypot_spec x y) as [H0 H].
  split; [reflexivity|]. split; [exact H0|]. split; [exact H|].
  split; [apply round_hypot_int_hypot|reflexivity].
Qed.

Lemma range_is_integer_part_of_norm_witness :
  r_mm (mkTarget 2 3000 4000 5000 0 0) = Z.sqrt (3000 * 3000 + 4000 * 4000) /\
  0 <= 5000.
Proof.
  pose proof (range_is_integer_part_of_norm frame_b
                [mkTarget 1 2 2 2 0 0; mkTarget 2 3000 4000 5000 0 0]
                (mkTarget 2 3000 4000 5000 0 0)
                ltac:(vm_compute; reflexivity)
                ltac:(right; left; reflexivity)) as H.
  destruct H as [H1 [H2 _]]. split; [exact H1|exact H2].
Defined.

(** ** Floats: packing to binary32, checks over the decoder's value ranges *)

Lemma iter_pos_inv {A : Type} (f : A -> A) (P : A -> Prop) :
  (forall x, P x -> P (f x)) -> forall p x, P x -> P (iter_pos f p x).
Proof.
  intros Hf. induction p as [p IH|p IH|]; intros x Hx; simpl; auto.
Qed.

Lemma shr_1_digits (K : Z) (mrs : shr_record) :
  0 <= shr_m mrs /\ Zdigits2 (shr_m mrs) <= K ->
  0 <= shr_m (shr_1 mrs) /\ Zdigits2 (shr_m (shr_1 mrs)) <= K.
Proof.
  destruct mrs as [m r s]. simpl shr_m at 1 2.
  destruct m as [|p|p]; [| |lia].
  - simpl. lia.
  - destruct p; simpl; lia.
Qed.

Lemma shr_digits (K : Z) (mrs : shr_record) (e n : Z) :
  0 <= shr_m mrs -> Zdigits2 (shr_m mrs) <= K ->
  0 <= shr_m (fst (shr mrs e n)) /\
  Zdigits2 (shr_m (fst (shr mrs e n))) <= K /\
  snd (shr mrs e n) = e + Z.max 0 n.
Proof.
  intros H0 HK. unfold shr. destruct n as [|p|p]; simpl fst; simpl snd.
  - split; [assumption|split; [assumption|lia]].
  - pose proof (iter_pos_inv shr_1
        (fun x => 0 <= shr_m x /\ Zdigits2 (shr_m x) <= K)
        (shr_1_digits K) p mrs (conj H0 HK)) as [A B].
    split; [assumption|split; [assumption|lia]].
  - split; [assumption|split; [assumption|lia]].
Qed.

Lemma digits2_pos_succ (p : positive) :
  (Z.pos (digits2_pos (Pos.succ p)) <= Z.pos (digits2_pos p) + 1).
Proof. induction p; simpl; lia. Qed.

Lemma round_nearest_even_digits (m : Z) (l : location) :
  0 <= m ->
  0 <= round_nearest_even m l /\
  Zdigits2 (round_nearest_even m l) <= Zdigits2 m + 1.
Proof.
  intros H.
  assert (S : 0 <= m + 1 /\ Zdigits2 (m + 1) <= Zdigits2 m + 1).
  { destruct m as [|p|p]; [simpl; lia| |lia].
    split; [lia|]. replace (Z.pos p + 1) with (Z.pos (Pos.succ p)) by lia.
    apply digits2_pos_succ. }
  unfold round_nearest_even.
  destruct l as [|[| |]]; try (split; lia); try assumption.
  destruct (Z.even m); [split; lia|assumption].
Qed.

Lemma shr_record_of_loc_m (m : Z) (l : location) : shr_m (shr_record_of_loc m l) = m.
Proof. now destruct l as [|[| |]]. Qed.

(** Rounding a binary64 number of small exponent to binary32 does not
    overflow. *)
Lemma binary_round_finite (s : bool) (m : positive) (e : Z) :
  canonical_mantissa prec emax m e = true -> e <= -32 ->
  forall s', binary_round prec32 emax32 s m e <> S754_infinity s'.
Proof.
  intros C He s'. unfold canonical_mantissa, fexp, SpecFloat.emin in C.
  apply Z.eqb_eq in C. change prec with 53 in C. change emax with 1024 in C.
  assert (D : Z.pos (digits2_pos m) <= 53) by lia.
  unfold binary_round, prec32, emax32.
  assert (A : shl_align m e (SpecFloat.fexp 24 128 (Z.pos (digits2_pos m) + e)) = (m, e)).
  { unfold shl_align, SpecFloat.fexp, SpecFloat.emin.
    destruct (Z.max (Z.pos (digits2_pos m) + e - 24) (3 - 128 - 24) - e) eqn:E;
      try reflexivity. lia. }
  rewrite A. unfold binary_round_aux, shr_fexp.
  set (n1 := SpecFloat.fexp 24 128 (Zdigits2 (Z.pos m) + e) - e).
  pose proof (shr_digits 53 (shr_record_of_loc (Z.pos m) loc_Exact) e n1
                ltac:(simpl; lia) ltac:(simpl; lia)) as [P1 [P2 P3]].
  destruct (shr (shr_record_of_loc (Z.pos m) loc_Exact) e n1) as [mrs' e'].
  simpl in P1, P2, P3.
  pose proof (round_nearest_even_digits (shr_m mrs') (loc_of_shr_record mrs') P1)
    as [R1 R2].
  set (m1 := round_nearest_even (shr_m mrs') (loc_of_shr_record mrs')) in *.
  set (n2 := SpecFloat.fexp 24 128 (Zdigits2 m1 + e') - e').
  pose proof (shr_digits 54 (shr_record_of_loc m1 loc_Exact) e' n2
                ltac:(rewrite shr_record_of_loc_m; lia)
                ltac:(rewrite shr_record_of_loc_m; lia)) as [Q1 [Q2 Q3]].
  destruct (shr (shr_record_of_loc m1 loc_Exact) e' n2) as [mrs'' e''].
  simpl in Q1, Q2, Q3.
  destruct (shr_m mrs''); try discriminate.
  assert (L : e'' <= 128 - 24).
  { subst e'' e'. unfold n1, n2, SpecFloat.fexp, SpecFloat.emin in *.
    simpl Zdigits2 in *. lia. }
  apply Z.leb_le in L. rewrite L. discriminate.
Qed.

Lemma pack_f_bounded (x : float) :
  (abs x <=? 0x1p20)%float = true -> pack_f x = Some (f32le x).
Proof.
  intros H. rewrite leb_spec, abs_spec in H.
  pose proof (Prim2SF_valid x) as V.
  unfold pack_f, to_binary32.
  destruct (Prim2SF x) as [s|s| |s m e] eqn:E; try reflexivity.
  destruct (binary_round prec32 emax32 s m e) as [s'|s'| |s' m' e'] eqn:B;
    try reflexivity.
  exfalso. apply (binary_round_finite s m e) with (s' := s'); [| |exact B].
  - unfold valid_binary, SpecFloat.valid_binary, bounded in V.
    apply andb_true_iff in V as [V _]. exact V.
  - assert (P : Prim2SF 0x1p20%float = S754_finite false 4503599627370496 (-32))
      by (vm_compute; reflexivity).
    rewrite P in H. unfold SFleb, SFabs, SFcompare in H.
    destruct (Z.compare_spec e (-32)); first [lia|discriminate].
Qed.

Lemma all_from_spec (n : nat) (z : Z) (P : Z -> bool) :
  all_from n z P = true -> forall i, z <= i < z + Z.of_nat n -> P i = true.
Proof.
  revert z. induction n as [|n IH]; intros z H i Hi; [lia|].
  simpl in H. apply andb_true_iff in H as [H0 H].
  destruct (Z.eq_dec i z) as [->|Hne]; [assumption|].
  apply (IH (z + 1) H). lia.
Qed.


Lemma range_ok_all : all_from (Z.to_nat 65536) 0 range_ok = true.
Proof. vm_compute. reflexivity. Qed.

Lemma speed_ok_all : all_from (Z.to_nat 32768) 0 speed_ok = true.
Proof. vm_compute. reflexivity. Qed.

Lemma depth_ok_all : all_from (Z.to_nat 65536) 0 depth_ok = true.
Proof. vm_compute. reflexivity. Qed.

Lemma position_ok_all : all_from (Z.to_nat 65535) (-32767) position_ok = true.
Proof. vm_compute. reflexivity. Qed.

Lemma range_tests (r : Z) :
  0 <= r <= 65535 ->
  (float_of_int r / 1000.0 <? 0.5)%float = (r <? 500) /\
  (8.0 <? float_of_int r / 1000.0)%float = (8000 <? r).
Proof.
  intros H. pose proof (all_from_spec _ _ _ range_ok_all r ltac:(lia)) as K.
  unfold range_ok in K. cbv zeta in K. apply andb_true_iff in K as [K1 K2].
  apply Bool.eqb_prop in K1, K2. now split.
Qed.

Lemma speed_tests (a : Z) :
  0 <= a <= 32767 ->
  (4.0 <? float_of_int a / 100.0)%float = (400 <? a) /\
  (float_of_int a / 100.0 <? 0.05)%float = (a <? 5).
Proof.
  intros H. pose proof (all_from_spec _ _ _ speed_ok_all a ltac:(lia)) as K.
  unfold speed_ok in K. cbv zeta in K. apply andb_true_iff in K as [K1 K2].
  apply Bool.eqb_prop in K1, K2. now split.
Qed.

Lemma Qltb_frac (a c : Z) (b d : positive) :
  Qltb (a # b) (c # d) = (a * Z.pos d <? c * Z.pos b).
Proof. unfold Qltb, Qle_bool. simpl. now rewrite Z.ltb_antisym. Qed.

Lemma ltb_ext (a b c d : Z) : (a < b <-> c < d) -> (a <? b) = (c <? d).
Proof.
  intros H. destruct (Z.ltb_spec a b), (Z.ltb_spec c d); try reflexivity; lia.
Qed.

(** The float tests of [classify_target] decide exactly the spec's
    conditions on the exact quotients. *)
Lemma classify_target_spec (t : Target) :
  0 <= r_mm t <= 65535 -> -32767 <= speed_cm_s t <= 32767 ->
  classify_target t = classify_spec t.
Proof.
  intros Hr Hs.
  destruct (range_tests (r_mm t) Hr) as [R1 R2].
  destruct (speed_tests (Z.abs (speed_cm_s t)) ltac:(lia)) as [S1 S2].
  unfold classify_target, classify_spec. cbv zeta.
  rewrite R1, R2, S1, S2, !Qltb_frac.
  rewrite (ltb_ext (r_mm t * 10) (5 * 1000) (r_mm t) 500) by lia.
  rewrite (ltb_ext (8 * 1000) (r_mm t * 1) 8000 (r_mm t)) by lia.
  rewrite (ltb_ext (4 * 100) (Z.abs (speed_cm_s t) * 1) 400 (Z.abs (speed_cm_s t))) by lia.
  rewrite (ltb_ext (Z.abs (speed_cm_s t) * 100) (5 * 100) (Z.abs (speed_cm_s t)) 5) by lia.
  reflexivity.
Qed.

(** ** The classifier *)

(** C5: classification is a total function, and on every target it is
    the spec's rule list with first match winning: range_m < 0.5 or
    range_m > 8.0 gives (Ghost, 0.2); else |speed| > 4.0 m/s gives
    (Ghost, 0.3); else |speed| < 0.05 m/s gives (Object, 0.8); else
    (Person, 0.85), where range_m = range_mm/1000 and speed =
    speed_cm_s/100 are the exact quotients.  The range test goes first:
    at range_m = 0.3 a speed of 500 cm/s still gives (Ghost, 0.2). *)
Theorem classification_rules (t : Target) :
  0 <= r_mm t <= 65535 -> -32767 <= speed_cm_s t <= 32767 ->
  classify_target t =
    (let range_m := r_mm t # 1000 in
     let speed_m_s := Z.abs (speed_cm_s t) # 100 in
     if Qltb range_m (5 # 10) || Qltb (8 # 1) range_m
     then (OBJECT_TYPE_GHOST, 0.2%float)
     else if Qltb (4 # 1) speed_m_s then (OBJECT_TYPE_GHOST, 0.3%float)
     else if Qltb speed_m_s (5 # 100) then (OBJECT_TYPE_OBJECT, 0.8%float)
     else (OBJECT_TYPE_PERSON, 0.85%float)) /\
  classify_target (mkTarget 1 300 0 300 500 0) = (OBJECT_TYPE_GHOST, 0.2%float) /\
  classify_target (mkTarget 1 2000 0 2000 0 0) = (OBJECT_TYPE_OBJECT, 0.8%float) /\
  classify_target (mkTarget 1 2000 0 2000 50 0) = (OBJECT_TYPE_PERSON, 0.85%float) /\
  classify_target (mkTarget 1 2000 0 2000 500 0) = (OBJECT_TYPE_GHOST, 0.3%float).
Proof.
  intros Hr Hs. split; [now apply classify_target_spec|].
  repeat split; vm_compute; reflexivity.
Qed.

Lemma classification_rules_witness :
  classify_target (mkTarget 1 (-100) 1000 1004 50 360)
  = (OBJECT_TYPE_PERSON, 0.85%float).
Proof.
  pose proof (classification_rules (mkTarget 1 (-100) 1000 1004 50 360)
                ltac:(simpl; lia) ltac:(simpl; lia)) as [H _].
  rewrite H. vm_compute. reflexivity.
Defined.

(** ** The packet encoder *)

Lemma position_clamp (x : Z) :
  -32767 <= x <= 32767 ->
  let t := mkTarget 1 x 0 0 0 0 in
  vis_x (radar_fields t) = vis_x (spec_fields t) /\
  small (vis_x (radar_fields t)) = true.
Proof.
  intros H t. pose proof (all_from_spec _ _ _ position_ok_all x ltac:(lia)) as K.
  unfold position_ok in K. cbv zeta in K. apply andb_true_iff in K as [P S].
  split; [|exact S]. clear S.
  unfold radar_fields, spec_fields, t. cbn [vis_x x_mm].
  unfold py_max, py_min, clamp, MAX_POSITION_METERS, POSITION_SCALE in *.
  set (v := (float_of_int x / 1000.0 * 3.0)%float) in *.
  change (PrimFloat.opp 10.0%float) with (-10.0)%float in *.
  assert (E : (-10.0 <? 10.0)%float = true) by reflexivity.
  remember (v <? 10.0)%float as a eqn:Ea.
  remember (-10.0 <? v)%float as b eqn:Eb.
  remember (v <? -10.0)%float as c eqn:Ec.
  remember (10.0 <? v)%float as d eqn:Ed.
  destruct a; [rewrite <- Eb|rewrite E];
    destruct b, c, d; simpl in P; try discriminate P; reflexivity.
Qed.

Lemma depth_small (r : Z) :
  0 <= r <= 65535 ->
  let p := radar_fields (mkTarget 1 0 0 r 0 0) in
  small (depth_m p) = true /\ small (snr_db p) = true /\
  small (confidence p) = true.
Proof.
  intros H p. pose proof (all_from_spec _ _ _ depth_ok_all r ltac:(lia)) as K.
  unfold depth_ok in K. cbv zeta in K. fold p in K.
  apply andb_true_iff in K as [K K3]. apply andb_true_iff in K as [K1 K2].
  now repeat split.
Qed.

(** The fields handed to [struct.pack] are the spec's. *)
Lemma radar_fields_spec (t : Target) :
  -32767 <= x_mm t <= 32767 -> -32767 <= y_mm t <= 32767 ->
  0 <= r_mm t <= 65535 -> -32767 <= speed_cm_s t <= 32767 ->
  radar_fields t = spec_fields t.
Proof.
  intros Hx Hy Hr Hs.
  destruct (position_clamp (x_mm t) Hx) as [Ex _].
  destruct (position_clamp (y_mm t) Hy) as [Ey _].
  pose proof (classify_target_spec t Hr Hs) as Ec.
  change (vis_x (radar_fields t) = vis_x (spec_fields t)) in Ex.
  change (vis_y (radar_fields t) = vis_y (spec_fields t)) in Ey.
  assert (Eo : object_type_byte (radar_fields t) = object_type_byte (spec_fields t)).
  { unfold radar_fields, spec_fields. cbn [object_type_byte]. rewrite Ec.
    change 0xFF with (Z.ones 8). now rewrite Z.land_ones by lia. }
  change (radar_fields t)
    with (mkFields (vis_x (radar_fields t)) (vis_y (radar_fields t))
                   (depth_m (spec_fields t)) (snr_db (spec_fields t))
                   (confidence (spec_fields t))
                   (object_type_byte (radar_fields t))).
  rewrite Ex, Ey, Eo. reflexivity.
Qed.

Lemma pack_radar_data_spec (t : Target) :
  -32767 <= x_mm t <= 32767 -> -32767 <= y_mm t <= 32767 ->
  0 <= r_mm t <= 65535 -> -32767 <= speed_cm_s t <= 32767 ->
  pack_radar_data t = Some (encode_fields (spec_fields t)).
Proof.
  intros Hx Hy Hr Hs.
  destruct (position_clamp (x_mm t) Hx) as [_ Sx].
  destruct (position_clamp (y_mm t) Hy) as [_ Sy].
  destruct (depth_small (r_mm t) Hr) as [Sd [Sq Sc]].
  change (small (vis_x (radar_fields t)) = true) in Sx.
  change (small (vis_y (radar_fields t)) = true) in Sy.
  change (small (depth_m (radar_fields t)) = true) in Sd.
  change (small (snr_db (radar_fields t)) = true) in Sq.
  change (small (confidence (radar_fields t)) = true) in Sc.
  unfold pack_radar_data, pack_fffffB.
  rewrite !pack_f_bounded by assumption.
  rewrite (radar_fields_spec t Hx Hy Hr Hs). reflexivity.
Qed.

(** C6: the packet is five little-endian binary32 floats followed by one
    byte, 21 bytes in all, and its fields are the spec's: visual_x and
    visual_y the coordinates in metres times 3.0 clamped to [-10, 10],
    depth the range in metres, signal quality clamp(40 - 5 depth, 5, 35),
    confidence clamp((quality - 5)/30, 0, 1), and the classifier's type
    masked to a byte.  A depth of 2.0 gives a signal quality of 30.0, and
    x_mm = 5000000 gives a visual_x of 10.0. *)
Theorem packet_encoding (t : Target) :
  -32767 <= x_mm t <= 32767 -> -32767 <= y_mm t <= 32767 ->
  0 <= r_mm t <= 65535 -> -32767 <= speed_cm_s t <= 32767 ->
  pack_radar_data t = Some (encode_fields (spec_fields t)) /\
  length (encode_fields (spec_fields t)) = 21%nat /\
  depth_m (radar_fields (mkTarget 1 0 2000 2000 0 0)) = 2.0%float /\
  snr_db (radar_fields (mkTarget 1 0 2000 2000 0 0)) = 30.0%float /\
  vis_x (radar_fields (mkTarget 1 5000000 0 5000000 0 0)) = 10.0%float.
Proof.
  intros Hx Hy Hr Hs. split; [now apply pack_radar_data_spec|].
  repeat split; vm_compute; reflexivity.
Qed.

Lemma packet_encoding_witness :
  pack_radar_data (mkTarget 1 3000 4000 5000 50 0) =
  Some [x00; x00; x10; x41;  x00; x00; x20; x41;  x00; x00; xa0; x40;
        x00; x00; x70; x41;  xab; xaa; xaa; x3e;  x01].
Proof.
  pose proof (packet_encoding (mkTarget 1 3000 4000 5000 50 0)
                ltac:(simpl; lia) ltac:(simpl; lia)
                ltac:(simpl; lia) ltac:(simpl; lia)) as [H _].
  rewrite H. vm_compute. reflexivity.
Defined.

(** ** The relay *)

Lemma drain_spec (q : Queue) (targets : option batch) :
  drain q targets =
  (match q with [] => targets | _ :: _ => Some (last q []) end, []).
Proof.
  revert targets. induction q as [|b q IH]; intros targets; [reflexivity|].
  simpl drain. rewrite IH. destruct q; reflexivity.
Qed.

(** [drain] is the loop as written, with [empty] and [get_nowait]; the
    [except queue.Empty] branch is never reached. *)
Lemma drain_loop (q : Queue) (targets : option batch) :
  drain q targets =
  if negb (Queue_empty q)
  then match Queue_get_nowait q with
       | Some (item, q') => drain q' (Some item)
       | None => (None, q)
       end
  else (targets, q).
Proof. destruct q; reflexivity. Qed.

(** The head of the stable sort: the first of the elements of smallest
    key. *)
Lemma sorted_by_r_mm_head (t : Target) (l : list Target) :
  exists target rest l1 l2,
    sorted_by_r_mm (t :: l) = target :: rest /\
    t :: l = l1 ++ target :: l2 /\
    (forall u, In u l1 -> r_mm target < r_mm u) /\
    (forall u, In u l2 -> r_mm target <= r_mm u).
Proof.
  revert t. induction l as [|t' l IH]; intros t.
  - exists t, [], [], []. simpl. repeat split; intros u [].
  - destruct (IH t') as [m [rest [l1 [l2 [Hs [Hl [H1 H2]]]]]]].
    simpl sorted_by_r_mm in *. rewrite Hs. simpl insert_by_r_mm.
    destruct (Z.leb_spec (r_mm t) (r_mm m)) as [L|L].
    + exists t, (m :: rest), [], (t' :: l). repeat split.
      * intros u [].
      * intros u Hu. rewrite Hl in Hu. apply in_app_iff in Hu.
        destruct Hu as [Hu|[<-|Hu]].
        -- specialize (H1 u Hu). lia.
        -- assumption.
        -- specialize (H2 u Hu). lia.
    + exists m, (insert_by_r_mm t rest), (t :: l1), l2. repeat split.
      * rewrite Hl. reflexivity.
      * intros u [<-|Hu]; [assumption|now apply H1].
      * assumption.
Qed.

(** Decoded batches list their targets by ascending slot index. *)
Lemma parse_targets_ascending (frame : bytes) (b : batch) :
  parse_targets frame = Some b ->
  StronglySorted (fun u v => target_id u < target_id v) b.
Proof.
  intros P.
  destruct (Nat.eq_dec (length frame) FRAME_LEN) as [L|L];
    [|rewrite parse_targets_length in P by assumption; discriminate].
  rewrite parse_targets_slots in P by assumption. injection P as <-.
  unfold slot_targets.
  rewrite !parse_slot_spec by (assumption || (unfold TARGETS_PER_FRAME; lia)).
  destruct (bytes_eqb (slot_bytes frame 0) zero_segment);
    destruct (bytes_eqb (slot_bytes frame 1) zero_segment);
    destruct (bytes_eqb (slot_bytes frame 2) zero_segment);
    cbv zeta; simpl app;
    repeat (constructor; simpl; try lia).
Qed.

Lemma StronglySorted_after (R : Target -> Target -> Prop)
    (l1 l2 : list Target) (t : Target) :
  StronglySorted R (l1 ++ t :: l2) -> Forall (R t) l2.
Proof.
  induction l1 as [|a l1 IH]; simpl; intros H.
  - now apply StronglySorted_inv in H as [_ H].
  - apply StronglySorted_inv in H as [H _]. now apply IH.
Qed.

(** The target the tick picks from a decoded batch is its closest one. *)
Lemma sorted_head_closest (b : batch) :
  decoded_batch b ->
  exists target rest, sorted_by_r_mm b = target :: rest /\ closest target b.
Proof.
  intros [Hne [frame P]]. destruct b as [|t l]; [contradiction|].
  destruct (sorted_by_r_mm_head t l) as [m [rest [l1 [l2 [Hs [Hl [H1 H2]]]]]]].
  exists m, rest. split; [assumption|].
  pose proof (parse_targets_ascending _ _ P) as A. rewrite Hl in A.
  apply StronglySorted_after in A. rewrite Forall_forall in A.
  unfold closest. rewrite Hl. repeat split.
  - apply in_app_iff. right. now left.
  - intros u Hu. apply in_app_iff in Hu. destruct Hu as [Hu|[<-|Hu]].
    + specialize (H1 u Hu). lia.
    + lia.
    + now apply H2.
  - intros u Hu E. apply in_app_iff in Hu. destruct Hu as [Hu|[<-|Hu]].
    + specialize (H1 u Hu). lia.
    + lia.
    + specialize (A u Hu). simpl in A. lia.
Qed.

Lemma decoded_batch_packs (b : batch) (t : Target) :
  decoded_batch b -> In t b ->
  pack_radar_data t = Some (encode_fields (spec_fields t)).
Proof.
  intros [_ [frame P]] Hin.
  pose proof (parse_targets_bounds _ _ _ P Hin) as [_ [Hx [Hy [Hr [Hs _]]]]].
  apply pack_radar_data_spec; lia.
Qed.

Lemma decoded_batch_a : decoded_batch batch_a.
Proof.
  split; [discriminate|]. exists frame_a. vm_compute. reflexivity.
Qed.

Lemma decoded_batch_b : decoded_batch batch_b.
Proof.
  split; [discriminate|]. exists frame_b. vm_compute. reflexivity.
Qed.

(** C10: a tick while the subscriber is not notifying, or before the
    queue is attached, returns at once: the state, queue and stored value
    included, is unchanged and nothing is published.  Batches queued
    meanwhile stay queued: a batch enqueued while idle is the one the
    first tick after [StartNotify] encodes. *)
Theorem idle_tick (st : Relay) :
  notifying st = false \/ radar_queue_attached st = false ->
  update_radar_data st = (st, Published []) /\
  (let idle := mkRelay false [] true [batch_a] in
   Queue_put [] batch_a = Put (data_queue idle) /\
   update_radar_data idle = (idle, Published []) /\
   update_radar_data (StartNotify idle)
   = (mkRelay true packet_a true [], Published [packet_a])).
Proof.
  intros H. split.
  - unfold update_radar_data. destruct H as [-> | ->]; [reflexivity|].
    now rewrite orb_true_r.
  - repeat split; vm_compute; reflexivity.
Qed.

Lemma idle_tick_witness :
  update_radar_data (mkRelay false packet_b true [batch_a; batch_b])
  = (mkRelay false packet_b true [batch_a; batch_b], Published []).
Proof.
  apply (idle_tick (mkRelay false packet_b true [batch_a; batch_b])).
  left. reflexivity.
Defined.

(** C1, as stated, fails: the reader calls the blocking [put].  On a
    queue holding 10 batches the call waits; no batch is evicted and the
    new batch is not in the queue. *)
Lemma full_queue_put_counterexample :
  length (repeat batch_a 10) = maxsize /\
  Queue_put (repeat batch_a 10) batch_b = Blocks /\
  radar_reader_iteration [] frame_b (repeat batch_a 10) = Waiting [] batch_b /\
  ~ (exists q', Queue_put (repeat batch_a 10) batch_b = Put q' /\ In batch_b q').
Proof.
  split; [reflexivity|]. split; [reflexivity|].
  split; [vm_compute; reflexivity|].
  intros [q' [H _]]. discriminate H.
Qed.

(** * Further properties of the code *)

(** ** The frame synchronizer *)

Lemma parse_targets_some (frame : bytes) :
  length frame = FRAME_LEN -> exists targets, parse_targets frame = Some targets.
Proof. intros L. rewrite parse_targets_slots by assumption. eauto. Qed.

Lemma valid_frame_length (f : bytes) : valid_frame f = true -> length f = FRAME_LEN.
Proof.
  unfold valid_frame. intros V.
  apply andb_true_iff in V as [V _]. apply andb_true_iff in V as [L _].
  now apply Nat.eqb_eq in L.
Qed.

(** X1: whatever the buffer and the bytes read, a frame returned by
    [read_frame] is 30 bytes long, starts with the header and ends with
    the tail, so [parse_targets] accepts it: its assertion cannot fail on
    the reader's path. *)
Theorem read_frame_returns_decodable (buf chunk f r : bytes) :
  read_frame buf chunk = (Some f, r) ->
  length f = FRAME_LEN /\
  startswith FRAME_HEADER f = true /\
  last_bytes 2 f = FRAME_TAIL /\
  exists targets, parse_targets f = Some targets /\ (length targets <= 3)%nat.
Proof.
  intros H. unfold read_frame in H.
  pose proof (extract_result (buf ++ chunk)) as R. rewrite H in R.
  destruct R as [_ [_ V]].
  pose proof (valid_frame_length f V) as L.
  unfold valid_frame in V.
  apply andb_true_iff in V as [V T]. apply andb_true_iff in V as [_ S].
  apply bytes_eqb_eq in T. repeat split; try assumption.
  rewrite parse_targets_slots by assumption. eexists. split; [reflexivity|].
  unfold slot_targets. rewrite !length_app.
  destruct (parse_slot f 0) as [[?|]|], (parse_slot f 1) as [[?|]|],
    (parse_slot f 2) as [[?|]|]; simpl; lia.
Qed.

Lemma read_frame_returns_decodable_witness :
  length frame_b = FRAME_LEN /\
  startswith FRAME_HEADER frame_b = true /\
  last_bytes 2 frame_b = FRAME_TAIL /\
  exists targets, parse_targets frame_b = Some targets /\ (length targets <= 3)%nat.
Proof.
  apply (read_frame_returns_decodable [x00; xaa] (frame_b ++ [xaa; xff]) frame_b
           [xaa; xff]).
  vm_compute. reflexivity.
Defined.

Lemma extract_pass_split (b : bytes) :
  match extract_pass b with
  | Return None r => exists pre, b = pre ++ r
  | Return (Some f) r => exists pre, b = pre ++ f ++ r
  | Continue r => exists pre, b = pre ++ r
  end.
Proof.
  pose proof (extract_pass_window b) as W.
  destruct (extract_pass b) as [[f|] r|r] eqn:E.
  - destruct W as [i [F [L ->]]]. exists (firstn i b).
    unfold extract_pass in E. rewrite F in E.
    replace (length b - i <? FRAME_LEN)%nat with false in E
      by (symmetry; apply Nat.ltb_ge; lia).
    destruct (bytes_eqb _ FRAME_TAIL); [|discriminate].
    simpl in E. injection E as <-. unfold slice.
    replace (i + FRAME_LEN - i)%nat with FRAME_LEN by lia.
    rewrite <- (firstn_skipn i b) at 1. f_equal.
    rewrite <- (firstn_skipn FRAME_LEN (skipn i b)) at 1. f_equal.
    rewrite skipn_skipn. f_equal. lia.
  - apply extract_pass_none in E.
    destruct (find FRAME_HEADER b).
    + destruct E as [_ ->]. now exists [].
    + destruct E as [-> _]. unfold norm.
      destruct (find FRAME_HEADER b) as [i|].
      * exists (firstn i b). now rewrite firstn_skipn.
      * exists (firstn (length b - 3) b). unfold last_bytes.
        now rewrite firstn_skipn.
  - destruct W as [i [F [L ->]]]. exists (firstn (i + FRAME_LEN) b).
    now rewrite firstn_skipn.
Qed.

(** X2: a call never reorders or invents bytes: the bytes it had (buffer
    followed by the bytes read) are some dropped prefix, then the returned
    frame if there is one, then exactly the buffer it leaves.  What
    follows a returned frame is kept whole for the next call. *)
Theorem read_frame_splits_input (buf chunk : bytes) :
  exists dropped,
    buf ++ chunk =
    dropped ++ concat (frames_of_result (fst (read_frame buf chunk)))
            ++ snd (read_frame buf chunk).
Proof.
  unfold read_frame. generalize (buf ++ chunk). clear buf chunk. intros b.
  remember (length b) as n eqn:Hn.
  revert b Hn. induction n as [n IH] using lt_wf_ind. intros b ->.
  rewrite extract_unfold.
  pose proof (extract_pass_split b) as S.
  destruct (extract_pass b) as [[f|] r|r] eqn:E.
  - destruct S as [pre ->]. exists pre. simpl. now rewrite app_nil_r.
  - destruct S as [pre ->]. exists pre. reflexivity.
  - apply extract_pass_continue in E. unfold FRAME_LEN in E.
    destruct (IH (length r) ltac:(lia) r eq_refl) as [pre' H'].
    destruct S as [pre ->]. exists (pre ++ pre').
    rewrite <- app_assoc. f_equal. exact H'.
Qed.



Lemma scan_all_residue (b : bytes) :
  stable (snd (scan_all b)) /\ (length (snd (scan_all b)) <= length b)%nat.
Proof.
  remember (length b) as n eqn:Hn.
  revert b Hn. induction n as [n IH] using lt_wf_ind. intros b ->.
  rewrite scan_extract.
  pose proof (extract_result b) as R.
  destruct (_extract_frame_from_buffer b) as [[f|] r].
  - destruct R as [_ [R _]]. unfold FRAME_LEN in R.
    destruct (IH (length r) ltac:(lia) r eq_refl) as [S L].
    destruct (scan_all r) as [fs r']. simpl in *. split; [assumption|lia].
  - destruct R as [R S]. simpl. now split.
Qed.

(** The frames of [s ++ c] are those of [s], then those of what scanning
    [s] leaves with [c] appended. *)
Lemma scan_app (s c : bytes) :
  fst (scan_all (s ++ c)) =
  fst (scan_all s) ++ fst (scan_all (snd (scan_all s) ++ c)).
Proof.
  remember (length s) as n eqn:Hn.
  revert s Hn. induction n as [n IH] using lt_wf_ind. intros s ->.
  rewrite scan_app_extract, (scan_extract s).
  pose proof (extract_result s) as R.
  destruct (_extract_frame_from_buffer s) as [[f|] r]; [|reflexivity].
  destruct R as [_ [R _]]. unfold FRAME_LEN in R.
  specialize (IH (length r) ltac:(lia) r eq_refl).
  simpl fst at 1. simpl snd at 1. rewrite IH.
  destruct (scan_all r) as [fs r']. reflexivity.
Qed.

Lemma read_frames_app (b : bytes) (l1 l2 : list bytes) :
  read_frames b (l1 ++ l2) =
  (fst (read_frames b l1) ++ fst (read_frames (snd (read_frames b l1)) l2),
   snd (read_frames (snd (read_frames b l1)) l2)).
Proof.
  revert b. induction l1 as [|c l1 IH]; intros b.
  - simpl. now destruct (read_frames b l2).
  - simpl. destruct (read_frame b c) as [o b1]. rewrite IH.
    destruct (read_frames b1 l1) as [f1 b2]. simpl.
    destruct (read_frames b2 l2) as [f2 b3]. simpl. now destruct o.
Qed.

Lemma read_frames_chunk_idle (n : nat) (b c : bytes) :
  (length b + length c <= S n)%nat ->
  read_frames b (c :: repeat [] n) = scan_all (b ++ c).
Proof.
  intros L. rewrite <- (read_frames_drain (S n) (b ++ c))
    by (rewrite length_app; lia).
  simpl. unfold read_frame. rewrite !app_nil_r. reflexivity.
Qed.

Lemma read_frames_idle_scan (n : nat) (chunks : list bytes) (b : bytes) :
  stable b -> (length b + length (concat chunks) <= S n)%nat ->
  fst (read_frames b (with_idle_reads n chunks)) =
  fst (scan_all (b ++ concat chunks)) /\
  snd (read_frames b (with_idle_reads n chunks)) =
  fold_left (fun buf c => snd (scan_all (buf ++ c))) chunks b.
Proof.
  revert b. induction chunks as [|c cs IH]; intros b Hs L.
  - simpl. rewrite app_nil_r, scan_stable by assumption. now split.
  - simpl in L. rewrite length_app in L.
    change (with_idle_reads n (c :: cs))
      with ((c :: repeat [] n) ++ with_idle_reads n cs).
    rewrite (read_frames_app b (c :: repeat [] n) (with_idle_reads n cs)).
    rewrite read_frames_chunk_idle by lia.
    destruct (scan_all_residue (b ++ c)) as [S1 L1]. rewrite length_app in L1.
    destruct (IH (snd (scan_all (b ++ c))) S1 ltac:(lia)) as [IH1 IH2].
    simpl fst. simpl snd. simpl concat. simpl fold_left.
    rewrite IH1, IH2. split; [|reflexivity].
    rewrite app_assoc. symmetry. apply scan_app.
Qed.

(** X4: however a byte stream is cut into reads, if each read is
    followed by enough empty reads for [read_frame] to return [None], the
    frames returned are the same, in the same order, as when the whole
    stream arrives in one read. *)
Theorem chunking_invariance_any (chunks : list bytes) :
  let n := length (concat chunks) in
  fst (read_frames [] (with_idle_reads n chunks)) =
  fst (read_frames [] (concat chunks :: repeat [] n)).
Proof.
  intros n.
  destruct (read_frames_idle_scan n chunks [] extract_pass_nil
              ltac:(simpl; lia)) as [H _].
  rewrite H, read_frames_at_once by lia. reflexivity.
Qed.





(** A drained buffer: stable, with its first header, if any, within the
    first 64 bytes. *)
Lemma drained_step (b c : bytes) :
  stable b ->
  match find FRAME_HEADER b with Some i => (i <= 63)%nat | None => True end ->
  (length c <= 64)%nat ->
  let r := snd (scan_all (b ++ c)) in
  stable r /\
  match find FRAME_HEADER r with Some i => (i <= 63)%nat | None => True end.
Proof.
  intros Hs Hi Hc r.
  destruct (scan_all_residue (b ++ c)) as [Sr Lr]. fold r in Sr, Lr.
  split; [exact Sr|].
  pose proof (stable_inv b Hs) as Sb.
  assert (Hu : forall i, find FRAME_HEADER (b ++ c) = Some i ->
                         (i <= 63)%nat /\ (length (b ++ c) - i - FRAME_LEN <= 63)%nat).
  { intros i F. pose proof (find_bound _ _ _ F) as B.
    rewrite length_app in *. simpl in B. unfold FRAME_LEN in *.
    destruct (find FRAME_HEADER b) as [i0|] eqn:Fb.
    - rewrite (find_app_some _ _ c _ Fb) in F. injection F as <-. lia.
    - lia. }
  assert (Short : forall r1, (length r1 <= 63)%nat ->
            match find FRAME_HEADER (snd (scan_all r1)) with
            | Some i => (i <= 63)%nat | None => True end).
  { intros r1 L1. destruct (scan_all_residue r1) as [_ L].
    destruct (find FRAME_HEADER (snd (scan_all r1))) as [j|] eqn:F; [|exact I].
    apply find_bound in F. lia. }
  unfold r. rewrite scan_unfold.
  pose proof (extract_pass_window (b ++ c)) as W.
  destruct (extract_pass (b ++ c)) as [[f|] r1|r1] eqn:E.
  - destruct W as [i [F [L ->]]]. destruct (Hu i F) as [_ H1].
    specialize (Short (skipn (i + FRAME_LEN) (b ++ c))
                  ltac:(rewrite length_skipn; lia)).
    destruct (scan_all (skipn (i + FRAME_LEN) (b ++ c))). exact Short.
  - simpl. apply extract_pass_none in E.
    destruct (find FRAME_HEADER (b ++ c)) as [i|] eqn:F.
    + destruct E as [_ ->]. rewrite F. now apply Hu.
    + destruct E as [_ E]. rewrite find_short by (simpl; lia). exact I.
  - destruct W as [i [F [L ->]]]. destruct (Hu i F) as [_ H1].
    apply Short. rewrite length_skipn. lia.
Qed.

Lemma drained_fold (chunks : list bytes) (b : bytes) :
  stable b ->
  match find FRAME_HEADER b with Some i => (i <= 63)%nat | None => True end ->
  Forall (fun chunk => (length chunk <= 64)%nat) chunks ->
  (length (fold_left (fun buf c => snd (scan_all (buf ++ c))) chunks b) <= 92)%nat.
Proof.
  revert b. induction chunks as [|c cs IH]; intros b Hs Hi Hc.
  - simpl. apply stable_inv in Hs. unfold FRAME_LEN in Hs.
    destruct (find FRAME_HEADER b); lia.
  - apply Forall_cons_iff in Hc as [Hc Hcs]. simpl.
    destruct (drained_step b c Hs Hi Hc) as [S1 I1]. now apply IH.
Qed.

(** X6: reads of at most 64 bytes, each followed by enough empty reads
    for [read_frame] to return [None], never leave more than 92 bytes in
    the buffer, whatever the bytes are. *)
Theorem drained_buffer_bounded (chunks : list bytes) :
  Forall (fun chunk => (length chunk <= 64)%nat) chunks ->
  let n := length (concat chunks) in
  (length (snd (read_frames [] (with_idle_reads n chunks))) <= 92)%nat.
Proof.
  intros Hc n.
  destruct (read_frames_idle_scan n chunks [] extract_pass_nil
              ltac:(simpl; lia)) as [_ H].
  rewrite H. apply drained_fold; [exact extract_pass_nil|exact I|exact Hc].
Qed.

Lemma drained_buffer_bounded_witness :
  (length (snd (read_frames []
     (with_idle_reads 120 [frame_a ++ frame_b; frame_b ++ frame_a]))) <= 92)%nat.
Proof.
  apply (drained_buffer_bounded [frame_a ++ frame_b; frame_b ++ frame_a]).
  repeat constructor; vm_compute; lia.
Defined.

(** ** The target decoder *)

Lemma slot_targets_length (frame : bytes) (idx : nat) :
  length frame = FRAME_LEN -> (idx < TARGETS_PER_FRAME)%nat ->
  length (slot_targets frame idx) =
  if bytes_eqb (slot_bytes frame idx) zero_segment then 0%nat else 1%nat.
Proof.
  intros L Hi. unfold slot_targets. rewrite parse_slot_spec by assumption.
  now destruct (bytes_eqb (slot_bytes frame idx) zero_segment).
Qed.

(** X7: [parse_targets] fails exactly on inputs that are not 30 bytes
    long, and never inside [struct.unpack_from].  On a 30-byte input it
    returns one target per non-zero slot, so at most three, listed by
    ascending slot index 1..3, with x, y and speed within +-32767, the
    range within 0..46340 and the distance gate within 0..65535. *)
Theorem parse_targets_shape (frame : bytes) :
  match parse_targets frame with
  | None => length frame <> FRAME_LEN
  | Some targets =>
      length frame = FRAME_LEN /\
      length targets = length (live_slots frame) /\
      (length targets <= 3)%nat /\
      StronglySorted (fun u v => target_id u < target_id v) targets /\
      Forall (fun t =>
                1 <= target_id t <= 3 /\
                -32767 <= x_mm t <= 32767 /\ -32767 <= y_mm t <= 32767 /\
                0 <= r_mm t <= 46340 /\
                -32767 <= speed_cm_s t <= 32767 /\
                0 <= dist_gate_mm t <= 65535) targets
  end.
Proof.
  destruct (Nat.eq_dec (length frame) FRAME_LEN) as [L|L];
    [|now rewrite parse_targets_length].
  destruct (parse_targets frame) as [targets|] eqn:P;
    [|rewrite parse_targets_slots in P by assumption; discriminate].
  split; [exact L|].
  assert (N : length targets = length (live_slots frame)).
  { rewrite parse_targets_slots in P by assumption. injection P as <-.
    rewrite !length_app,
      !slot_targets_length by (assumption || (unfold TARGETS_PER_FRAME; lia)).
    unfold live_slots. change (seq 0 TARGETS_PER_FRAME) with [0; 1; 2]%nat.
    simpl filter.
    destruct (bytes_eqb (slot_bytes frame 0) zero_segment),
      (bytes_eqb (slot_bytes frame 1) zero_segment),
      (bytes_eqb (slot_bytes frame 2) zero_segment); reflexivity. }
  split; [exact N|]. split.
  - rewrite N. unfold live_slots.
    pose proof (filter_length_le
      (fun idx => negb (bytes_eqb (slot_bytes frame idx) zero_segment))
      (seq 0 TARGETS_PER_FRAME)) as F.
    rewrite length_seq in F. exact F.
  - split; [now apply (parse_targets_ascending frame)|].
    apply Forall_forall. intros t Hin.
    exact (parse_targets_bounds frame targets t P Hin).
Qed.

Lemma nth_payload (h payload t : bytes) (k : nat) :
  length h = 4%nat -> (k < length payload)%nat ->
  nth (4 + k) (h ++ payload ++ t) x00 = nth k payload x00.
Proof.
  intros Lh Lk. rewrite app_nth2 by lia.
  replace (4 + k - length h)%nat with k by lia.
  now rewrite app_nth1.
Qed.

Lemma slot_bytes_payload (h payload t : bytes) (idx : nat) :
  length h = 4%nat -> length payload = 24%nat -> (idx < 3)%nat ->
  slot_bytes (h ++ payload ++ t) idx = firstn 8 (skipn (8 * idx) payload).
Proof.
  intros Lh Lp Hi. unfold slot_bytes.
  rewrite skipn_app. replace (4 + 8 * idx - length h)%nat with (8 * idx)%nat by lia.
  rewrite skipn_all2 by lia. simpl app.
  rewrite skipn_app_le by lia.
  apply firstn_app_le. rewrite length_skipn. lia.
Qed.

Lemma field_payload (h payload t : bytes) (idx k : nat) :
  length h = 4%nat -> length payload = 24%nat -> (idx < 3)%nat -> (k < 4)%nat ->
  field (h ++ payload ++ t) idx k =
  unpack_H (nth (8 * idx + 2 * k) payload x00)
           (nth (8 * idx + 2 * k + 1) payload x00).
Proof.
  intros Lh Lp Hi Hk. unfold field.
  replace (4 + 8 * idx + 2 * k)%nat with (4 + (8 * idx + 2 * k))%nat by lia.
  replace (5 + 8 * idx + 2 * k)%nat with (4 + (8 * idx + 2 * k + 1))%nat by lia.
  rewrite !nth_payload by lia. reflexivity.
Qed.

(** X8: [parse_targets] does not look at the header or the tail: two
    inputs of the same length with the same 24 slot bytes decode to the
    same result, whatever their first four and last bytes are.  Framing
    is checked by the synchronizer only. *)
Theorem parse_targets_ignores_framing (h h' payload t t' : bytes) :
  length h = 4%nat -> length h' = 4%nat -> length payload = 24%nat ->
  length t = length t' ->
  parse_targets (h ++ payload ++ t) = parse_targets (h' ++ payload ++ t').
Proof.
  intros Lh Lh' Lp Lt.
  destruct (Nat.eq_dec (length t) 2) as [L2|L2].
  - assert (L : length (h ++ payload ++ t) = FRAME_LEN)
      by (rewrite !length_app; unfold FRAME_LEN; lia).
    assert (L' : length (h' ++ payload ++ t') = FRAME_LEN)
      by (rewrite !length_app; unfold FRAME_LEN; lia).
    rewrite !parse_targets_slots by assumption.
    unfold slot_targets.
    rewrite !parse_slot_spec by (assumption || (unfold TARGETS_PER_FRAME; lia)).
    rewrite !slot_bytes_payload by (assumption || lia).
    rewrite !field_payload by (assumption || lia). reflexivity.
  - rewrite !parse_targets_length;
      [reflexivity| |]; rewrite !length_app; unfold FRAME_LEN; lia.
Qed.

Lemma parse_targets_ignores_framing_witness :
  parse_targets (FRAME_HEADER ++ slice 4 28 frame_b ++ FRAME_TAIL)
  = parse_targets ([x00; x00; x00; x00] ++ slice 4 28 frame_b ++ [xff; xff]).
Proof.
  apply (parse_targets_ignores_framing FRAME_HEADER [x00; x00; x00; x00]
           (slice 4 28 frame_b) FRAME_TAIL [xff; xff]); reflexivity.
Defined.

(** X9: on 16-bit values the signed-magnitude decoding stays within
    +-32767 and loses nothing but the sign of zero: two raw values with
    the same decoding are equal, or both are one of the two encodings of
    zero, 0x0000 and 0x8000. *)
Theorem decode_signed_mag_injective (u v : Z) :
  0 <= u < 65536 -> 0 <= v < 65536 ->
  _decode_signed_mag u = _decode_signed_mag v ->
  -32767 <= _decode_signed_mag u <= 32767 /\
  (u = v \/
   (_decode_signed_mag u = 0 /\ (u = 0 \/ u = 0x8000) /\ (v = 0 \/ v = 0x8000))).
Proof.
  intros Hu Hv. rewrite !decode_signed_mag_eq.
  pose proof (signed_mag_bound u Hu) as B.
  rewrite !signed_mag_arith by assumption.
  rewrite signed_mag_arith in B by assumption.
  destruct (Z.ltb_spec u 32768), (Z.ltb_spec v 32768); intros E; lia.
Qed.

Lemma decode_signed_mag_injective_witness :
  -32767 <= _decode_signed_mag 0 <= 32767 /\
  (0 = 0x8000 \/
   (_decode_signed_mag 0 = 0 /\ (0 = 0 \/ 0 = 0x8000) /\ (0x8000 = 0 \/ 0x8000 = 0x8000))).
Proof.
  apply (decode_signed_mag_injective 0 0x8000); [lia|lia|reflexivity].
Defined.

(** X10: the range of a decoded target is at least the larger of |x_mm|
    and |y_mm| and at most their sum, and it is zero only when both
    coordinates are. *)
Theorem range_between_max_and_sum
    (frame : bytes) (targets : list Target) (t : Target) :
  parse_targets frame = Some targets -> In t targets ->
  Z.max (Z.abs (x_mm t)) (Z.abs (y_mm t)) <= r_mm t
    <= Z.abs (x_mm t) + Z.abs (y_mm t) /\
  (r_mm t = 0 <-> x_mm t = 0 /\ y_mm t = 0).
Proof.
  intros P Hin. destruct (parse_targets_in _ _ _ P Hin) as [idx [_ [_ ->]]].
  cbn [r_mm x_mm y_mm].
  set (x := signed_mag (field frame idx 0)).
  set (y := signed_mag (field frame idx 1)).
  pose proof (int_hypot_spec x y) as [H0 H].
  remember (int_hypot x y) as r eqn:Er.
  assert (Hx : Z.abs x <= r) by nia.
  assert (Hy : Z.abs y <= r) by nia.
  assert (Hs : r <= Z.abs x + Z.abs y) by nia.
  split; [lia|]. split; [lia|]. intros [-> ->]. nia.
Qed.

Lemma range_between_max_and_sum_witness :
  Z.max (Z.abs 3000) (Z.abs 4000) <= 5000 <= Z.abs 3000 + Z.abs 4000 /\
  (5000 = 0 <-> 3000 = 0 /\ 4000 = 0).
Proof.
  exact (range_between_max_and_sum frame_b batch_b
           (mkTarget 2 3000 4000 5000 0 0)
           ltac:(vm_compute; reflexivity) ltac:(right; left; reflexivity)).
Defined.

(** ** The classifier and the packet encoder *)

Lemma classify_target_cases (t : Target) :
  classify_target t = (OBJECT_TYPE_GHOST, 0.2%float) \/
  classify_target t = (OBJECT_TYPE_GHOST, 0.3%float) \/
  classify_target t = (OBJECT_TYPE_OBJECT, 0.8%float) \/
  classify_target t = (OBJECT_TYPE_PERSON, 0.85%float).
Proof.
  unfold classify_target. cbv zeta.
  destruct (_ || _); [now left|].
  destruct (4.0 <? _)%float; [now right; left|].
  destruct (_ <? 0.05)%float; [now right; right; left|now right; right; right].
Qed.

(** X11: for every target whose integer fields are below 2^63 in
    absolute value, [classify_target] returns one of (Ghost, 0.2),
    (Ghost, 0.3), (Object, 0.8), (Person, 0.85); it never returns the
    type Unknown, and the mask to one byte in [pack_radar_data] leaves
    the type as it is. *)
Theorem classify_target_never_unknown (t : Target) :
  fields_below_2_63 t ->
  (classify_target t = (OBJECT_TYPE_GHOST, 0.2%float) \/
   classify_target t = (OBJECT_TYPE_GHOST, 0.3%float) \/
   classify_target t = (OBJECT_TYPE_OBJECT, 0.8%float) \/
   classify_target t = (OBJECT_TYPE_PERSON, 0.85%float)) /\
  fst (classify_target t) <> OBJECT_TYPE_UNKNOWN /\
  object_type_byte (radar_fields t) = fst (classify_target t).
Proof.
  intros _.
  pose proof (classify_target_cases t) as C. split; [exact C|].
  unfold radar_fields. cbn [object_type_byte].
  destruct C as [E|[E|[E|E]]]; rewrite E; split; (discriminate || reflexivity).
Qed.

Lemma classify_target_never_unknown_witness :
  let t := mkTarget 3 (-4000000000) 3000000000 5000000000 (-1000000) 360 in
  (classify_target t = (OBJECT_TYPE_GHOST, 0.2%float) \/
   classify_target t = (OBJECT_TYPE_GHOST, 0.3%float) \/
   classify_target t = (OBJECT_TYPE_OBJECT, 0.8%float) \/
   classify_target t = (OBJECT_TYPE_PERSON, 0.85%float)) /\
  fst (classify_target t) <> OBJECT_TYPE_UNKNOWN /\
  object_type_byte (radar_fields t) = fst (classify_target t).
Proof.
  intros t. apply (classify_target_never_unknown t).
  unfold fields_below_2_63, t. repeat split; reflexivity.
Defined.

Lemma pack_f_some (x : float) (b : bytes) : pack_f x = Some b -> b = f32le x.
Proof.
  unfold pack_f. intros H.
  destruct (Prim2SF x); try (now injection H);
    destruct (to_binary32 x); try discriminate; now injection H.
Qed.

(** X12: for every target whose integer fields are below 2^63 in
    absolute value, when [pack_radar_data] returns a packet it has
    exactly 21 bytes: the four bytes of each of the five float fields, in
    order, then the classifier's type as the last byte. *)
Theorem packet_has_21_bytes (t : Target) (p : bytes) :
  fields_below_2_63 t ->
  pack_radar_data t = Some p ->
  length p = 21%nat /\
  p = encode_fields (radar_fields t) /\
  nth 20 p x00 = byte_of_Z (fst (classify_target t)).
Proof.
  unfold pack_radar_data, pack_fffffB. intros _ H.
  destruct (pack_f (vis_x (radar_fields t))) as [a|] eqn:Ea; [|discriminate].
  destruct (pack_f (vis_y (radar_fields t))) as [b|] eqn:Eb; [|discriminate].
  destruct (pack_f (depth_m (radar_fields t))) as [c|] eqn:Ec; [|discriminate].
  destruct (pack_f (snr_db (radar_fields t))) as [d|] eqn:Ed; [|discriminate].
  destruct (pack_f (confidence (radar_fields t))) as [e|] eqn:Ee; [|discriminate].
  apply pack_f_some in Ea, Eb, Ec, Ed, Ee. subst a b c d e.
  injection H as <-.
  split; [reflexivity|]. split; [reflexivity|].
  cbn [nth]. unfold pack_B. cbn [nth object_type_byte].
  destruct (classify_target_cases t) as [E|[E|[E|E]]]; rewrite E; reflexivity.
Qed.

Lemma packet_has_21_bytes_witness :
  length packet_a = 21%nat /\
  packet_a = encode_fields (radar_fields (mkTarget 1 (-100) 1000 1004 50 360)) /\
  nth 20 packet_a x00
  = byte_of_Z (fst (classify_target (mkTarget 1 (-100) 1000 1004 50 360))).
Proof.
  apply (packet_has_21_bytes (mkTarget 1 (-100) 1000 1004 50 360) packet_a).
  - unfold fields_below_2_63. repeat split; reflexivity.
  - vm_compute. reflexivity.
Defined.

Lemma position_range_ok_all :
  all_from (Z.to_nat 65535) (-32767) position_range_ok = true.
Proof. vm_compute. reflexivity. Qed.

Lemma depth_range_ok_all : all_from (Z.to_nat 65536) 0 depth_range_ok = true.
Proof. vm_compute. reflexivity. Qed.

(** X13: for every target in the decoder's ranges, the packet's float
    fields are within their ranges: visual_x and visual_y in [-10, 10],
    depth at least 0, signal quality in [5, 35], confidence in [0, 1].
    The signal quality is 35 and the confidence 1 up to a range of
    1000 mm, they are 5 and 0 from 7000 mm on, and strictly in between
    for the ranges in between. *)
Theorem packet_fields_ranges (t : Target) :
  -32767 <= x_mm t <= 32767 -> -32767 <= y_mm t <= 32767 ->
  0 <= r_mm t <= 65535 ->
  fields_in_range (radar_fields t) = true /\
  saturation (r_mm t) (radar_fields t) = true.
Proof.
  intros Hx Hy Hr.
  pose proof (all_from_spec _ _ _ position_range_ok_all (x_mm t) ltac:(lia)) as Px.
  pose proof (all_from_spec _ _ _ position_range_ok_all (y_mm t) ltac:(lia)) as Py.
  pose proof (all_from_spec _ _ _ depth_range_ok_all (r_mm t) ltac:(lia)) as Pr.
  unfold position_range_ok in Px, Py. unfold depth_range_ok in Pr.
  cbv zeta in Px, Py, Pr.
  change (vis_x (radar_fields (mkTarget 1 (x_mm t) 0 0 0 0)))
    with (vis_x (radar_fields t)) in Px.
  change (vis_x (radar_fields (mkTarget 1 (y_mm t) 0 0 0 0)))
    with (vis_y (radar_fields t)) in Py.
  apply andb_true_iff in Pr as [Pr Ps].
  change (saturation (r_mm t) (radar_fields t) = true) in Ps.
  change (depth_m (radar_fields (mkTarget 1 0 0 (r_mm t) 0 0)))
    with (depth_m (radar_fields t)) in Pr.
  change (snr_db (radar_fields (mkTarget 1 0 0 (r_mm t) 0 0)))
    with (snr_db (radar_fields t)) in Pr.
  change (confidence (radar_fields (mkTarget 1 0 0 (r_mm t) 0 0)))
    with (confidence (radar_fields t)) in Pr.
  split; [|exact Ps]. unfold fields_in_range.
  apply andb_true_iff in Px as [Px1 Px2]. apply andb_true_iff in Py as [Py1 Py2].
  rewrite Px1, Px2, Py1, Py2. exact Pr.
Qed.

Lemma packet_fields_ranges_witness :
  fields_in_range (radar_fields (mkTarget 2 3000 4000 5000 0 0)) = true /\
  saturation 5000 (radar_fields (mkTarget 2 3000 4000 5000 0 0)) = true.
Proof.
  apply (packet_fields_ranges (mkTarget 2 3000 4000 5000 0 0));
    simpl; lia.
Defined.

(** ** The reader thread and the tick, interleaved *)

Lemma reader_iteration_cases (buf chunk : bytes) (q : Queue) :
  match radar_reader_iteration buf chunk q with
  | Raised => False
  | Looped buf' q' =>
      buf' = snd (read_frame buf chunk) /\
      (q' = q \/
       exists b, decoded_batch b /\ (length q < maxsize)%nat /\ q' = q ++ [b])
  | Waiting buf' b =>
      buf' = snd (read_frame buf chunk) /\ decoded_batch b /\
      (maxsize <= length q)%nat
  end.
Proof.
  unfold radar_reader_iteration.
  pose proof (extract_result (buf ++ chunk)) as R. fold (read_frame buf chunk) in R.
  destruct (read_frame buf chunk) as [[f|] r]; simpl snd;
    [|split; [reflexivity|now left]].
  destruct R as [_ [_ V]]. apply valid_frame_length in V.
  destruct (parse_targets_some f V) as [targets P].
  destruct f as [|x f]; [discriminate|]. rewrite P.
  destruct targets as [|t ts]; [split; [reflexivity|now left]|].
  assert (D : decoded_batch (t :: ts)).
  { split; [discriminate|]. now exists (x :: f). }
  unfold Queue_put. destruct (Nat.ltb_spec (length q) maxsize) as [L|L].
  - split; [reflexivity|]. right. now exists (t :: ts).
  - split; [reflexivity|]. split; assumption.
Qed.

(** X14: one iteration of the reader's loop never raises: a frame that
    [read_frame] returns always passes the assertion of [parse_targets].
    It either leaves the queue as it is, or appends one non-empty decoded
    batch to a queue that had room, or waits in [put] with such a batch
    on a queue that is full; the buffer it leaves is the one [read_frame]
    left. *)
Theorem reader_iteration_never_raises (buf chunk : bytes) (q : Queue) :
  match radar_reader_iteration buf chunk q with
  | Raised => False
  | Looped buf' q' =>
      buf' = snd (read_frame buf chunk) /\
      (q' = q \/
       exists b, decoded_batch b /\ (length q < maxsize)%nat /\ q' = q ++ [b])
  | Waiting buf' b =>
      buf' = snd (read_frame buf chunk) /\ decoded_batch b /\
      (maxsize <= length q)%nat
  end.
Proof. exact (reader_iteration_cases buf chunk q). Qed.

Lemma publish_keeps (st : Relay) (targets : option batch) :
  data_queue (fst (publish st targets)) = data_queue st /\
  notifying (fst (publish st targets)) = notifying st /\
  radar_queue_attached (fst (publish st targets)) = radar_queue_attached st.
Proof.
  unfold publish, update_value.
  destruct targets as [[|t ts]|]; try (now repeat split).
  destruct (sorted_by_r_mm (t :: ts)) as [|target rest]; [now repeat split|].
  destruct (pack_radar_data target); [|now repeat split].
  cbn [notifying]. destruct (notifying st); now repeat split.
Qed.

Lemma Queue_put_inv (q q' : Queue) (b : batch) :
  Queue_put q b = Put q' -> (length q < maxsize)%nat /\ q' = q ++ [b].
Proof.
  unfold Queue_put. destruct (Nat.ltb_spec (length q) maxsize) as [L|L];
    [|discriminate].
  intros E. injection E as <-. now split.
Qed.

Ltac invariant_parts := split; [|split; [|split; [|split]]].

Ltac invariant_kept :=
  try assumption;
  try (intros ? E; discriminate E);
  try (intros N; contradiction).

Lemma step_invariant (s s' : System) (e : event) :
  relay_invariant s -> step s e s' -> relay_invariant s'.
Proof.
  intros [I1 [I2 [I3 [I4 I5]]]] St. unfold relay_invariant.
  destruct St as [s chunk buf' q' Hp Hc Hr | s chunk buf' b Hp Hc Hr
                 | s b q' Hp Hq | s Ht Hg | s Ht Hg
                 | s targets item q' Ht He Hq | s targets st' o Ht He Hq
                 | s Ht | s Ht | s Ht];
    cbn [radar_buffer reader_pending tick relay set_data_queue set_radar_queue
         data_queue notifying radar_queue_attached].
  - pose proof (reader_iteration_cases (radar_buffer s) chunk
                  (data_queue (relay s))) as C. rewrite Hr in C.
    destruct C as [_ [-> | [b [D [L ->]]]]]; invariant_parts; invariant_kept.
    + rewrite length_app. simpl. lia.
    + apply Forall_app. split; [assumption|]. now constructor.
  - pose proof (reader_iteration_cases (radar_buffer s) chunk
                  (data_queue (relay s))) as C. rewrite Hr in C.
    destruct C as [_ [D _]]. invariant_parts; invariant_kept.
    intros b0 E. now injection E as <-.
  - apply Queue_put_inv in Hq as [L ->]. invariant_parts; invariant_kept.
    + rewrite length_app. simpl. lia.
    + apply Forall_app. split; [assumption|]. constructor; [|constructor].
      now apply I3.
  - invariant_parts; invariant_kept.
  - apply orb_false_iff in Hg as [G1 G2].
    apply negb_false_iff in G1, G2. invariant_parts; invariant_kept.
    intros _. now split.
  - assert (G : notifying (relay s) = true /\ radar_queue_attached (relay s) = true)
      by (apply I5; rewrite Ht; discriminate).
    destruct (data_queue (relay s)) as [|b q] eqn:Eq; [discriminate|].
    simpl in Hq. injection Hq as <- <-.
    apply Forall_cons_iff in I2 as [Db Dq]. invariant_parts; invariant_kept.
    + simpl in I1. lia.
    + intros b0 E. now injection E as <-.
    + intros _. exact G.
  - destruct (publish_keeps (relay s) targets) as [K1 [K2 K3]].
    rewrite Hq in K1, K2, K3. simpl in K1, K2, K3.
    rewrite K1. invariant_parts; invariant_kept.
  - rewrite Ht in *.
    unfold StartNotify. destruct (notifying (relay s));
      cbn [data_queue notifying radar_queue_attached];
      invariant_parts; invariant_kept.
  - rewrite Ht in *.
    unfold StopNotify. destruct (notifying (relay s));
      cbn [data_queue notifying radar_queue_attached negb];
      invariant_parts; invariant_kept.
  - rewrite Ht in *. invariant_parts; invariant_kept.
Qed.

Lemma steps_invariant (s s' : System) (es : list event) :
  relay_invariant s -> steps s es s' -> relay_invariant s'.
Proof.
  intros I St. induction St as [s|s s1 s2 e es St1 St2 IH]; [assumption|].
  apply IH. now apply (step_invariant s s1 e).
Qed.

Lemma initial_invariant : relay_invariant initial.
Proof.
  unfold relay_invariant, initial. simpl.
  repeat split; try discriminate; try constructor; try contradiction.
  unfold maxsize. lia.
Qed.

Lemma reachable_invariant (s : System) : reachable s -> relay_invariant s.
Proof.
  intros [es St]. exact (steps_invariant _ _ _ initial_invariant St).
Qed.

Lemma steps_app (s1 s2 s3 : System) (es1 es2 : list event) :
  steps s1 es1 s2 -> steps s2 es2 s3 -> steps s1 (es1 ++ es2) s3.
Proof.
  induction 1 as [s|s sa sb e es St1 St2 IH]; intros H; [exact H|].
  simpl. apply (steps_cons s sa s3); [assumption|now apply IH].
Qed.

Lemma reader_enqueues_frame_a (q : Queue) :
  (length q < maxsize)%nat ->
  radar_reader_iteration [] frame_a q = Looped [] (q ++ [batch_a]).
Proof.
  intros L. unfold radar_reader_iteration.
  assert (R : read_frame [] frame_a = (Some frame_a, []))
    by (vm_compute; reflexivity).
  assert (P : parse_targets frame_a = Some batch_a)
    by (vm_compute; reflexivity).
  rewrite R, P. unfold Queue_put. apply Nat.ltb_lt in L.
  unfold batch_a at 1 2. unfold frame_a at 1. simpl app. cbv iota beta.
  fold batch_a. now rewrite L.
Qed.

Lemma reader_fills_queue (k : nat) (n a : bool) (v : bytes) :
  (k <= maxsize)%nat ->
  steps (mkSystem [] None NotInTick (mkRelay n v a []))
        (repeat Tau k)
        (mkSystem [] None NotInTick (mkRelay n v a (repeat batch_a k))).
Proof.
  induction k as [|k IH]; intros L; [apply steps_nil|].
  replace (repeat Tau (S k)) with (repeat Tau k ++ [Tau])
    by (rewrite <- repeat_cons; reflexivity).
  apply steps_app with (s2 := mkSystem [] None NotInTick (mkRelay n v a (repeat batch_a k)));
    [apply IH; lia|].
  eapply steps_cons; [|apply steps_nil].
  replace (repeat batch_a (S k)) with (repeat batch_a k ++ [batch_a])
    by (rewrite <- repeat_cons; reflexivity).
  apply (reader_loops (mkSystem [] None NotInTick (mkRelay n v a (repeat batch_a k)))
           frame_a [] (repeat batch_a k ++ [batch_a])).
  - reflexivity.
  - vm_compute. lia.
  - apply reader_enqueues_frame_a. simpl. rewrite repeat_length. lia.
Qed.

Lemma sample_draining_reachable : reachable sample_draining.
Proof.
  exists [Tau; Tau; Tau; Tau; Tau]. unfold sample_draining.
  apply steps_cons with (s1 := mkSystem [] None NotInTick (mkRelay false [] true [])).
  { exact (attach_queue initial eq_refl). }
  apply steps_cons with (s1 := mkSystem [] None NotInTick (mkRelay true [] true [])).
  { exact (start_notify (mkSystem [] None NotInTick (mkRelay false [] true []))
             eq_refl). }
  apply steps_cons
    with (s1 := mkSystem [] None NotInTick (mkRelay true [] true [batch_a])).
  { apply (reader_loops (mkSystem [] None NotInTick (mkRelay true [] true []))
             frame_a [] [batch_a]);
      [reflexivity|vm_compute; lia|vm_compute; reflexivity]. }
  apply steps_cons
    with (s1 := mkSystem [] None (Draining None) (mkRelay true [] true [batch_a])).
  { exact (tick_enters_loop
             (mkSystem [] None NotInTick (mkRelay true [] true [batch_a]))
             eq_refl eq_refl). }
  apply steps_cons with (s1 := sample_draining); [|apply steps_nil].
  exact (tick_gets
           (mkSystem [] None (Draining None) (mkRelay true [] true [batch_a]))
           None batch_a [] eq_refl eq_refl eq_refl).
Qed.

Lemma sample_stalled_reachable : reachable sample_stalled.
Proof.
  exists (repeat Tau 10 ++ [Tau]). unfold sample_stalled, initial.
  apply steps_app
    with (s2 := mkSystem [] None NotInTick (mkRelay false [] false (repeat batch_a 10))).
  { apply (reader_fills_queue 10). unfold maxsize. lia. }
  apply steps_cons with (s1 := sample_stalled); [|apply steps_nil].
  apply (reader_blocks
           (mkSystem [] None NotInTick (mkRelay false [] false (repeat batch_a 10)))
           frame_a [] batch_a);
    [reflexivity|vm_compute; lia|vm_compute; reflexivity].
Qed.

(** X15: in every state the two threads can reach, under any
    interleaving, the queue holds at most 10 batches, every queued batch
    and the batch a blocked reader holds are non-empty lists decoded from
    a frame, and the tick is inside its loop only while the subscriber is
    notifying and the queue is attached. *)
Theorem relay_invariant_holds (s : System) :
  reachable s -> relay_invariant s.
Proof. exact (reachable_invariant s). Qed.

Lemma relay_invariant_holds_witness : relay_invariant sample_stalled.
Proof.
  apply (relay_invariant_holds sample_stalled).
  exact sample_stalled_reachable.
Defined.

(** X16: in every reachable state a tick that went through its loop
    never fails in [pack_radar_data].  If the loop removed no batch it
    publishes nothing and changes nothing; otherwise it publishes exactly
    one packet of 21 bytes, the encoding of the closest target of the
    last batch removed, and stores it as the characteristic's value. *)
Theorem tick_never_fails (s s' : System) (o : tick_outcome) :
  reachable s -> step s (TickDone o) s' ->
  match tick s with
  | Draining (Some b) =>
      exists target packet,
        closest target b /\ pack_radar_data target = Some packet /\
        length packet = 21%nat /\
        o = Published [packet] /\ value (relay s') = packet
  | _ => o = Published [] /\ relay s' = relay s
  end.
Proof.
  intros R St. apply reachable_invariant in R.
  destruct R as [_ [_ [_ [I4 I5]]]].
  inversion St as [| | | | | |s0 targets st' o' Ht He Hq| | |]; subst.
  rewrite Ht in *. cbn [relay].
  destruct targets as [b|]; [|simpl in Hq; injection Hq as <- <-; now split].
  specialize (I4 b eq_refl).
  destruct (I5 ltac:(discriminate)) as [Hn _].
  destruct (sorted_head_closest b I4) as [target [rest [Hs Hc]]].
  pose proof (decoded_batch_packs b target I4 (proj1 Hc)) as Hp.
  exists target, (encode_fields (spec_fields target)).
  split; [exact Hc|]. split; [exact Hp|]. split; [reflexivity|].
  unfold publish in Hq. destruct I4 as [Hne _].
  destruct b as [|t ts]; [contradiction|].
  rewrite Hs, Hp in Hq. unfold update_value in Hq. cbn [notifying] in Hq.
  rewrite Hn in Hq. injection Hq as <- <-. now split.
Qed.

Lemma tick_never_fails_witness :
  exists target packet,
    closest target batch_a /\ pack_radar_data target = Some packet /\
    length packet = 21%nat /\
    Published [packet_a] = Published [packet] /\
    value (mkRelay true packet_a true []) = packet.
Proof.
  apply (tick_never_fails sample_draining
           (mkSystem [] None NotInTick (mkRelay true packet_a true []))
           (Published [packet_a])).
  - exact sample_draining_reachable.
  - apply (tick_publishes sample_draining (Some batch_a)
             (mkRelay true packet_a true []) (Published [packet_a]));
      vm_compute; reflexivity.
Defined.

Lemma update_radar_data_publish (st : Relay) :
  notifying st = true -> radar_queue_attached st = true ->
  update_radar_data st =
  publish (set_data_queue st []) (fst (drain (data_queue st) None)).
Proof.
  destruct st as [n v a q]. cbn [notifying radar_queue_attached data_queue].
  intros -> ->. unfold update_radar_data.
  cbn [notifying radar_queue_attached data_queue value negb orb].
  rewrite drain_spec. reflexivity.
Qed.

Lemma drain_run (q : Queue) (s : System) (t : option batch) :
  tick s = Draining t -> data_queue (relay s) = q ->
  steps s (repeat Tau (length q))
        (mkSystem (radar_buffer s) (reader_pending s)
                  (Draining (fst (drain q t))) (set_data_queue (relay s) [])).
Proof.
  revert s t. induction q as [|item q IH]; intros s t Ht Hq.
  - destruct s as [buf pend tk [n v a dq]]. simpl in *. subst. apply steps_nil.
  - simpl repeat.
    apply steps_cons
      with (s1 := mkSystem (radar_buffer s) (reader_pending s)
                           (Draining (Some item)) (set_data_queue (relay s) q)).
    + apply (tick_gets s t item q Ht); rewrite Hq; reflexivity.
    + exact (IH (mkSystem (radar_buffer s) (reader_pending s)
                          (Draining (Some item)) (set_data_queue (relay s) q))
                (Some item) eq_refl eq_refl).
Qed.

(** X17: a tick that the reader does not interrupt is [update_radar_data]
    as a single function: from a state outside the tick, with the
    subscriber notifying and the queue attached, the steps of the tick
    (enter the loop, one removal per queued batch, publish) lead to the
    state [update_radar_data] returns and show its outcome, once. *)
Theorem tick_without_interleaving (s : System) :
  tick s = NotInTick ->
  notifying (relay s) = true -> radar_queue_attached (relay s) = true ->
  exists es,
    steps s es (mkSystem (radar_buffer s) (reader_pending s) NotInTick
                         (fst (update_radar_data (relay s)))) /\
    outcomes es = [snd (update_radar_data (relay s))] /\
    length es = (length (data_queue (relay s)) + 2)%nat.
Proof.
  intros Ht Hn Ha.
  set (q := data_queue (relay s)).
  set (s1 := mkSystem (radar_buffer s) (reader_pending s) (Draining None) (relay s)).
  set (s2 := mkSystem (radar_buffer s) (reader_pending s)
                      (Draining (fst (drain q None))) (set_data_queue (relay s) [])).
  exists (Tau :: repeat Tau (length q) ++ [TickDone (snd (update_radar_data (relay s)))]).
  split; [|split].
  - apply steps_cons with (s1 := s1).
    { apply (tick_enters_loop s Ht). now rewrite Hn, Ha. }
    apply steps_app with (s2 := s2).
    { exact (drain_run q s1 None eq_refl eq_refl). }
    eapply steps_cons; [|apply steps_nil].
    apply (tick_publishes s2 (fst (drain q None))
             (fst (update_radar_data (relay s))) (snd (update_radar_data (relay s))));
      [reflexivity|reflexivity|].
    rewrite (update_radar_data_publish (relay s) Hn Ha).
    cbn [relay s2]. fold q.
    now destruct (publish (set_data_queue (relay s) []) (fst (drain q None))).
  - simpl. induction (length q) as [|k IH]; [reflexivity|exact IH].
  - simpl. rewrite length_app, repeat_length. simpl. lia.
Qed.

Lemma tick_without_interleaving_witness :
  exists es,
    steps (mkSystem [] None NotInTick (mkRelay true [] true [batch_a; batch_b])) es
          (mkSystem [] None NotInTick (mkRelay true packet_b true [])) /\
    outcomes es = [Published [packet_b]] /\
    length es = 4%nat.
Proof.
  exact (tick_without_interleaving
           (mkSystem [] None NotInTick (mkRelay true [] true [batch_a; batch_b]))
           eq_refl eq_refl eq_refl).
Defined.

(** X18: with nobody subscribed the reader comes to a halt.  Eleven
    frames received while idle leave it waiting in [put] on a full queue,
    and then no step frees it except the subscriber's [StartNotify]:
    every other step leaves the buffer, the queue and the waiting batch as
    they are, so no further byte of the serial stream is read. *)
Theorem reader_stalls_while_idle (s s' : System) (e : event) :
  stalled s -> step s e s' ->
  e = Tau /\
  radar_buffer s' = radar_buffer s /\
  reader_pending s' = reader_pending s /\
  data_queue (relay s') = data_queue (relay s) /\
  (stalled s' \/ relay s' = StartNotify (relay s)) /\
  reachable sample_stalled /\ stalled sample_stalled.
Proof.
  intros [Hn [Ht [Hl [b Hp]]]] St.
  assert (Sample : reachable sample_stalled /\ stalled sample_stalled).
  { split; [exact sample_stalled_reachable|].
    unfold stalled, sample_stalled. simpl. repeat split. now exists batch_a. }
  assert (Still : stalled s) by (repeat split; try assumption; now exists b).
  destruct St as [s chunk buf' q' Hp' Hc Hr | s chunk buf' b' Hp' Hc Hr
                 | s b' q' Hp' Hq | s Ht' Hg | s Ht' Hg
                 | s targets item q' Ht' He Hq | s targets st' o Ht' He Hq
                 | s Ht' | s Ht' | s Ht'];
    try congruence;
    cbn [radar_buffer reader_pending relay].
  - apply Queue_put_inv in Hq as [L _]. lia.
  - do 4 (split; [reflexivity|]). split; [now left|exact Sample].
  - rewrite Hn in Hg. discriminate.
  - split; [reflexivity|]. split; [reflexivity|]. split; [reflexivity|].
    split; [|split; [now right|exact Sample]].
    unfold StartNotify. now destruct (notifying (relay s)).
  - assert (E : StopNotify (relay s) = relay s)
      by (unfold StopNotify; now rewrite Hn).
    rewrite E. do 4 (split; [reflexivity|]). split; [|exact Sample].
    left. unfold stalled. cbn [relay tick reader_pending].
    repeat split; try assumption. now exists b.
  - do 4 (split; [reflexivity|]). split; [|exact Sample].
    left. unfold stalled.
    cbn [relay tick reader_pending set_radar_queue notifying data_queue].
    repeat split; try assumption. now exists b.
Qed.

Lemma reader_stalls_while_idle_witness :
  Tau = Tau /\
  radar_buffer sample_stalled = radar_buffer sample_stalled /\
  reader_pending sample_stalled = reader_pending sample_stalled /\
  data_queue (relay sample_stalled) = data_queue (relay sample_stalled) /\
  (stalled sample_stalled \/ relay sample_stalled = StartNotify (relay sample_stalled)) /\
  reachable sample_stalled /\ stalled sample_stalled.
Proof.
  apply (reader_stalls_while_idle sample_stalled sample_stalled Tau).
  - unfold stalled, sample_stalled. simpl. repeat split. now exists batch_a.
  - exact (tick_returns_at_once sample_stalled eq_refl eq_refl).
Defined.

(** ** The reader's put and the tick, interleaved *)

Lemma last_removed_snoc (removed : list batch) (item : batch) :
  last_removed (removed ++ [item]) = Some item.
Proof.
  unfold last_removed. rewrite last_last. now destruct removed.
Qed.

Lemma removed_by_kept (s1 s2 : System) :
  (length (data_queue (relay s1)) <= length (data_queue (relay s2)))%nat ->
  removed_by s1 s2 = [].
Proof.
  intros L. unfold removed_by.
  destruct (Nat.ltb_spec (length (data_queue (relay s2)))
                         (length (data_queue (relay s1)))); [lia|reflexivity].
Qed.

Lemma removed_by_head (s1 s2 : System) (item : batch) :
  data_queue (relay s1) = item :: data_queue (relay s2) ->
  removed_by s1 s2 = [item].
Proof.
  intros E. unfold removed_by. rewrite E. simpl length.
  destruct (Nat.ltb_spec (length (data_queue (relay s2)))
                         (S (length (data_queue (relay s2))))); [reflexivity|lia].
Qed.

(** Inside the tick [targets] is the last batch removed, and the queue
    at the entry is a prefix of what was removed and what is queued: the
    loop removes the oldest batch first and the reader appends. *)
Lemma in_tick_state (s0 s : System) (removed : list batch) :
  in_tick s0 removed s ->
  negb (notifying (relay s0)) || negb (radar_queue_attached (relay s0)) = false /\
  tick s = Draining (last_removed removed) /\
  exists added,
    removed ++ data_queue (relay s) = data_queue (relay s0) ++ added.
Proof.
  induction 1 as [s0 s Ht St Hn | s0 s1 s2 removed T IH St].
  - inversion St as [sa chunk buf' q' Hp Hc Hr | sa chunk buf' b Hp Hc Hr
                    | sa b q' Hp Hq | sa Ht' Hg | sa Ht' Hg
                    | sa targets item q' Ht' He Hq |
                    | sa Ht' | sa Ht' | sa Ht']; subst;
      cbn [tick] in Hn; try congruence.
    split; [assumption|]. split; [reflexivity|].
    exists []. cbn [relay app]. now rewrite app_nil_r.
  - destruct IH as [Hg0 [Ht [added Hq0]]]. split; [assumption|].
    inversion St as [sa chunk buf' q' Hp Hc Hr | sa chunk buf' b Hp Hc Hr
                    | sa b q' Hp Hq | sa Ht' Hg | sa Ht' Hg
                    | sa targets item q' Ht' He Hq |
                    | sa Ht' | sa Ht' | sa Ht']; subst; try congruence.
    + pose proof (reader_iteration_cases (radar_buffer s1) chunk
                    (data_queue (relay s1))) as C. rewrite Hr in C.
      destruct C as [_ [-> | [b [_ [_ ->]]]]];
        (rewrite removed_by_kept, app_nil_r;
         [|cbn [relay set_data_queue data_queue]; rewrite ?length_app; lia]);
        cbn [tick relay set_data_queue data_queue];
        (split; [assumption|]).
      * now exists added.
      * exists (added ++ [b]). now rewrite !app_assoc, Hq0.
    + rewrite removed_by_kept, app_nil_r by (cbn [relay]; lia).
      cbn [tick relay]. split; [assumption|]. now exists added.
    + apply Queue_put_inv in Hq as [_ ->].
      rewrite removed_by_kept, app_nil_r
        by (cbn [relay set_data_queue data_queue]; rewrite length_app; lia).
      cbn [tick relay set_data_queue data_queue]. split; [assumption|].
      exists (added ++ [b]). now rewrite !app_assoc, Hq0.
    + destruct (data_queue (relay s1)) as [|item' q] eqn:Eq; [discriminate|].
      simpl in Hq. injection Hq as <- <-.
      rewrite (removed_by_head _ _ item')
        by (cbn [relay set_data_queue data_queue]; exact Eq).
      cbn [tick relay set_data_queue data_queue].
      split; [now rewrite last_removed_snoc|].
      exists added. now rewrite <- app_assoc.
Qed.

Lemma in_tick_reachable (s0 s : System) (removed : list batch) :
  reachable s0 -> in_tick s0 removed s -> reachable s.
Proof.
  intros R T. induction T as [s0 s Ht St Hn | s0 s1 s2 removed T IH St].
  - destruct R as [es R]. exists (es ++ [Tau]).
    apply steps_app with (s2 := s0); [assumption|].
    apply steps_cons with (s1 := s); [assumption|apply steps_nil].
  - destruct (IH R) as [es R1]. exists (es ++ [Tau]).
    apply steps_app with (s2 := s1); [assumption|].
    apply steps_cons with (s1 := s2); [assumption|apply steps_nil].
Qed.

Lemma sample_active_reachable : reachable sample_active.
Proof.
  exists [Tau; Tau; Tau]. unfold sample_active.
  apply steps_cons with (s1 := mkSystem [] None NotInTick (mkRelay false [] true [])).
  { exact (attach_queue initial eq_refl). }
  apply steps_cons with (s1 := mkSystem [] None NotInTick (mkRelay true [] true [])).
  { exact (start_notify (mkSystem [] None NotInTick (mkRelay false [] true []))
             eq_refl). }
  apply steps_cons
    with (s1 := mkSystem [] None NotInTick (mkRelay true [] true [batch_a]));
    [|apply steps_nil].
  apply (reader_loops (mkSystem [] None NotInTick (mkRelay true [] true []))
           frame_a [] [batch_a]);
    [reflexivity|vm_compute; lia|vm_compute; reflexivity].
Qed.

Lemma sample_tick_run : in_tick sample_active [batch_a; batch_b] sample_removed_b.
Proof.
  assert (T1 : in_tick sample_active [] sample_entered).
  { apply in_tick_entered; [reflexivity| |discriminate].
    exact (tick_enters_loop sample_active eq_refl eq_refl). }
  assert (T2 : in_tick sample_active [] sample_enqueued).
  { apply (in_tick_step sample_active sample_entered sample_enqueued [] T1).
    apply (reader_loops sample_entered frame_b [] [batch_a; batch_b]);
      [reflexivity|vm_compute; lia|vm_compute; reflexivity]. }
  assert (T3 : in_tick sample_active [batch_a] sample_removed_a).
  { apply (in_tick_step sample_active sample_enqueued sample_removed_a [] T2).
    exact (tick_gets sample_enqueued None batch_a [batch_b]
             eq_refl eq_refl eq_refl). }
  apply (in_tick_step sample_active sample_removed_a sample_removed_b [batch_a] T3).
  exact (tick_gets sample_removed_a (Some batch_a) batch_b []
           eq_refl eq_refl eq_refl).
Qed.

(** C7: a tick while the subscriber is notifying, whatever the reader
    does meanwhile, runs its loop until the queue is empty: it removes
    the batches queued when it started, oldest first, then those the
    reader enqueued during the loop, and keeps the last one removed.
    From that batch it publishes exactly one packet, the 21 bytes that
    encode the target of smallest [r_mm], the one of smallest slot index
    when several are as close, and stores it; if it removed no batch it
    publishes nothing and changes nothing. *)
Theorem publish_tick (s0 s s' : System) (removed : list batch)
    (o : tick_outcome) :
  reachable s0 -> in_tick s0 removed s -> step s (TickDone o) s' ->
  notifying (relay s0) = true /\ radar_queue_attached (relay s0) = true /\
  data_queue (relay s) = [] /\
  (exists added, removed = data_queue (relay s0) ++ added) /\
  tick s' = NotInTick /\
  match removed with
  | [] => o = Published [] /\ relay s' = relay s
  | _ :: _ =>
      exists target,
        closest target (last removed []) /\
        pack_radar_data target = Some (encode_fields (spec_fields target)) /\
        length (encode_fields (spec_fields target)) = 21%nat /\
        o = Published [encode_fields (spec_fields target)] /\
        relay s' = mkRelay true (encode_fields (spec_fields target)) true []
  end.
Proof.
  intros R T St.
  pose proof (reachable_invariant s (in_tick_reachable s0 s removed R T))
    as [_ [_ [_ [I4 I5]]]].
  destruct (in_tick_state s0 s removed T) as [Hg [Ht [added Hq0]]].
  apply orb_false_iff in Hg as [G1 G2]. apply negb_false_iff in G1, G2.
  destruct (I5 ltac:(rewrite Ht; discriminate)) as [Hn Ha].
  inversion St as [| | | | | |sa targets st' o' Ht' He Hq| | |]; subst.
  rewrite Ht in Ht'. injection Ht' as <-.
  destruct s as [buf pend tk [n v a q]].
  cbn [relay tick notifying radar_queue_attached data_queue] in *. subst n a tk.
  destruct q as [|b0 q]; [|discriminate].
  rewrite app_nil_r in Hq0.
  split; [assumption|]. split; [assumption|]. split; [reflexivity|].
  split; [now exists added|]. split; [reflexivity|].
  destruct removed as [|r0 removed]; [simpl in Hq; now injection Hq as <- <-|].
  unfold last_removed in Hq, I4.
  specialize (I4 _ eq_refl).
  destruct (sorted_head_closest _ I4) as [target [rest [Hs Hc]]].
  pose proof (decoded_batch_packs _ target I4 (proj1 Hc)) as Hp.
  exists target. split; [exact Hc|]. split; [exact Hp|]. split; [reflexivity|].
  unfold publish in Hq. destruct I4 as [Hne _].
  destruct (last (r0 :: removed) []) as [|t ts]; [contradiction|].
  rewrite Hs, Hp in Hq. unfold update_value in Hq.
  cbn [notifying radar_queue_attached data_queue] in Hq.
  injection Hq as <- <-. now split.
Qed.

Lemma publish_tick_witness :
  notifying (relay sample_active) = true /\
  radar_queue_attached (relay sample_active) = true /\
  data_queue (relay sample_removed_b) = [] /\
  (exists added, [batch_a; batch_b] = data_queue (relay sample_active) ++ added) /\
  tick sample_published = NotInTick /\
  exists target,
    closest target batch_b /\
    pack_radar_data target = Some (encode_fields (spec_fields target)) /\
    length (encode_fields (spec_fields target)) = 21%nat /\
    Published [packet_b] = Published [encode_fields (spec_fields target)] /\
    relay sample_published = mkRelay true (encode_fields (spec_fields target)) true [].
Proof.
  apply (publish_tick sample_active sample_removed_b sample_published
           [batch_a; batch_b] (Published [packet_b])).
  - exact sample_active_reachable.
  - exact sample_tick_run.
  - apply (tick_publishes sample_removed_b (Some batch_b)
             (mkRelay true packet_b true []) (Published [packet_b]));
      vm_compute; reflexivity.
Defined.

(** C1, amended: the reader's enqueue of a newly decoded non-empty batch
    is the blocking [put].  On a full queue the reader waits, holding the
    batch; the queue is left as it is and nothing is evicted.  While the
    queue stays full every step leaves the reader waiting with that batch
    and reads no byte, and the queue changes only when the tick's loop
    removes its oldest batch.  As soon as the queue has room the waiting
    [put] completes, appending the batch as the newest entry; on a queue
    with room the enqueue appends at once, and the appended batch is the
    one a draining keeps. *)
Theorem full_queue_put_waits (buf chunk frame buf' : bytes) (b : batch)
    (q : Queue) (w : System) :
  read_frame buf chunk = (Some frame, buf') ->
  parse_targets frame = Some b -> b <> [] ->
  reader_pending w = Some b ->
  radar_reader_iteration buf chunk q =
    (if (length q <? maxsize)%nat then Looped buf' (q ++ [b])
     else Waiting buf' b) /\
  drain (q ++ [b]) None = (Some b, []) /\
  (if (length (data_queue (relay w)) <? maxsize)%nat
   then step w Tau (mkSystem (radar_buffer w) None (tick w)
                             (set_data_queue (relay w)
                                             (data_queue (relay w) ++ [b])))
   else forall e w', step w e w' ->
          reader_pending w' = Some b /\ radar_buffer w' = radar_buffer w /\
          (data_queue (relay w') = data_queue (relay w) \/
           exists targets item,
             tick w = Draining targets /\ tick w' = Draining (Some item) /\
             data_queue (relay w) = item :: data_queue (relay w'))).
Proof.
  intros Hr Hp Hne Hw. split; [|split].
  - unfold radar_reader_iteration. rewrite Hr.
    destruct frame as [|x frame];
      [rewrite parse_targets_length in Hp by (unfold FRAME_LEN; simpl; lia);
       discriminate|].
    rewrite Hp. destruct b as [|t ts]; [contradiction|].
    unfold Queue_put. now destruct (length q <? maxsize)%nat.
  - rewrite drain_spec, last_last. now destruct q.
  - destruct (Nat.ltb_spec (length (data_queue (relay w))) maxsize) as [L|L].
    + apply (reader_resumes w b (data_queue (relay w) ++ [b]) Hw).
      unfold Queue_put. apply Nat.ltb_lt in L. now rewrite L.
    + intros e w' St.
      destruct St as [s chunk' buf'' q' Hp' Hc Hr' | s chunk' buf'' b' Hp' Hc Hr'
                     | s b' q' Hp' Hq | s Ht Hg | s Ht Hg
                     | s targets item q' Ht He Hq | s targets st' o Ht He Hq
                     | s Ht | s Ht | s Ht];
        try congruence;
        cbn [radar_buffer reader_pending relay tick set_data_queue
             set_radar_queue data_queue].
      * apply Queue_put_inv in Hq as [L' _]. lia.
      * split; [assumption|]. split; [reflexivity|]. now left.
      * split; [assumption|]. split; [reflexivity|]. now left.
      * split; [assumption|]. split; [reflexivity|]. right.
        exists targets, item. split; [assumption|]. split; [reflexivity|].
        destruct (data_queue (relay s)) as [|i0 q0]; [discriminate|].
        simpl in Hq. now injection Hq as <- <-.
      * destruct (data_queue (relay s)) as [|i0 q0]; [|discriminate].
        unfold maxsize in L. simpl in L. lia.
      * split; [assumption|]. split; [reflexivity|]. left.
        unfold StartNotify. now destruct (notifying (relay s)).
      * split; [assumption|]. split; [reflexivity|]. left.
        unfold StopNotify. now destruct (notifying (relay s)).
      * split; [assumption|]. split; [reflexivity|]. now left.
Qed.

Lemma full_queue_put_waits_witness :
  radar_reader_iteration [] frame_b (repeat batch_a 10) = Waiting [] batch_b /\
  drain (repeat batch_a 10 ++ [batch_b]) None = (Some batch_b, []) /\
  forall e w', step sample_waiting e w' ->
    reader_pending w' = Some batch_b /\
    radar_buffer w' = radar_buffer sample_waiting /\
    (data_queue (relay w') = data_queue (relay sample_waiting) \/
     exists targets item,
       tick sample_waiting = Draining targets /\
       tick w' = Draining (Some item) /\
       data_queue (relay sample_waiting) = item :: data_queue (relay w')).
Proof.
  apply (full_queue_put_waits [] frame_b frame_b [] batch_b
           (repeat batch_a 10) sample_waiting).
  - vm_compute. reflexivity.
  - vm_compute. reflexivity.
  - discriminate.
  - reflexivity.
Defined.

(** ** Commands *)

(** X19: [WriteValue] never fails in the method lookup and calls
    [handle_command] on the command characteristic only.  Written to the
    radar data characteristic, the bytes replace its stored value, the
    one the relay publishes into, and nothing else; written to the
    command characteristic, they become that characteristic's value and
    the command acts on the radar characteristic.  A command never
    touches what the relay uses (notifying, value, queue).  Only its
    first byte counts; an empty write and a first byte other than 1 or 2
    change nothing; the tracking reset (1) empties the tracker, restarts
    the ids at 1 and keeps the timestamp base, and repeating it changes
    nothing; the timestamp reset (2) changes the timestamp base only; the
    two resets commute. *)
Theorem command_handling (A : Type) (now now' : Z) (c : byte)
    (data rest rest' : bytes) (sv : Service A) :
  let rc := radar_char sv in
  let st := char_relay rc in
  let reset := handle_command now (x01 :: rest) rc in
  WriteValue now RadarDataCharacteristic data sv
    = Some (mkService
              (mkRadarChar
                 (mkRelay (notifying st) data (radar_queue_attached st)
                          (data_queue st))
                 (object_tracker rc) (next_object_id rc) (base_timestamp rc))
              (command_value sv)) /\
  WriteValue now CommandCharacteristic data sv
    = Some (mkService (handle_command now data rc) data) /\
  char_relay (handle_command now data rc) = st /\
  handle_command now (c :: rest) rc = handle_command now (c :: rest') rc /\
  handle_command now [] rc = rc /\
  (if Byte.eqb c x01 || Byte.eqb c x02 then True
   else handle_command now (c :: rest) rc = rc) /\
  reset = mkRadarChar st [] 1 (base_timestamp rc) /\
  handle_command now' (x01 :: rest') reset = reset /\
  handle_command now (x02 :: rest) rc
    = mkRadarChar st (object_tracker rc) (next_object_id rc) now /\
  handle_command now (x01 :: rest) (handle_command now' (x02 :: rest') rc)
    = handle_command now' (x02 :: rest') (handle_command now (x01 :: rest) rc).
Proof.
  intros rc st reset. unfold reset, st.
  split; [reflexivity|]. split; [reflexivity|]. split.
  { unfold handle_command. destruct (length data =? 0)%nat; [reflexivity|].
    destruct (Byte.eqb _ x01); [reflexivity|].
    now destruct (Byte.eqb _ x02). }
  unfold handle_command. cbn [length Nat.eqb nth].
  repeat split; try reflexivity.
  destruct (Byte.eqb c x01); [exact I|]. now destruct (Byte.eqb c x02).
Qed.
